(** * Raw-PCM audio decoding and the playback controller

    A shallow embedding of [utils/audioPlayer.ts]: the base64 decoder
    [decode], the PCM converter [decodeAudioData] and the [AudioPlayer]
    class, together with the parts of the browser platform they call
    ([atob], typed arrays, the Web Audio buffer and source node).

    Conventions.
    - A JavaScript exception is a value [Throw e] of [Result]; the error
      classes are the platform's own ([InvalidCharacterError] from [atob],
      [RangeError] from the typed-array constructor, [NotSupportedError]
      from [createBuffer]).
    - JavaScript numbers that hold sample values are IEEE binary64 floats
      ([PrimFloat.float]); a store into a [Float32Array] rounds to binary32.
    - Array lengths and indices are [nat]; all of them are far below 2^32,
      so Web IDL's reduction of an [unsigned long] modulo 2^32 is left out.
    - The player is a record; the source nodes it creates live in a heap
      (a list indexed by node reference).  A method maps a state to a state
      and the events it makes observable.  The resumption of [load()] after
      its [await] and the [ended] events of the platform are steps of their
      own, interleaved freely with the calls of the caller.

    The generation service ([services/geminiService.ts]), the application
    shell ([App.tsx]) and the result screen
    ([components/ResultDisplay.tsx]) follow the player, with their own
    conventions stated where they start. *)

From Stdlib Require Import ZArith NArith Ascii String Floats Uint63.
From Stdlib.Strings Require Import Byte.
From stdpp Require Import base list strings.

Local Open Scope Z_scope.

(** ** Exceptions *)

Inductive JsError :=
  | InvalidCharacterError   (* DOMException thrown by atob *)
  | RangeError              (* typed-array view over a misaligned buffer *)
  | NotSupportedError       (* DOMException thrown by createBuffer *)
  | IndexSizeError.         (* DOMException thrown by getChannelData *)

Inductive Result (A : Type) :=
  | Ok (a : A)
  | Throw (e : JsError).
Arguments Ok {A} a.
Arguments Throw {A} e.

#[global] Instance Result_bind : MBind Result := λ A B k r,
  match r with
  | Ok a => k a
  | Throw e => Throw e
  end.

(** ** [atob]: the platform's forgiving-base64 decoder

    [decode] calls the global [atob].  Its behaviour is fixed by the HTML
    and Infra standards (forgiving-base64 decode); the steps below follow
    that algorithm one by one.  A JavaScript string is modelled by [string]
    (8-bit characters): every character above U+00FF is outside the base64
    alphabet and would make [atob] throw as any other invalid character
    does, and the binary string [atob] returns has only 8-bit characters. *)
Module Base64.

Definition is_ascii_whitespace (c : ascii) : bool :=
  let n := N_of_ascii c in
  ((n =? 9) || (n =? 10) || (n =? 12) || (n =? 13) || (n =? 32))%N.

(** Table 1 of RFC 4648: the value of a character of the alphabet. *)
Definition sextet (c : ascii) : option N :=
  let n := N_of_ascii c in
  (if (65 <=? n) && (n <=? 90) then Some (n - 65)
   else if (97 <=? n) && (n <=? 122) then Some (n - 71)
   else if (48 <=? n) && (n <=? 57) then Some (n + 4)
   else if n =? 43 then Some 62
   else if n =? 47 then Some 63
   else None)%N.

Definition in_alphabet (c : ascii) : bool :=
  match sextet c with Some _ => true | None => false end.

Definition is_equals (c : ascii) : bool := (N_of_ascii c =? 61)%N.

(** Step 2: when the length is a multiple of four, one or two trailing
    [=] are removed. *)
Definition strip_padding (data : list ascii) : list ascii :=
  if (length data mod 4 =? 0)%nat then
    match rev data with
    | c1 :: c2 :: r =>
        if is_equals c1 then
          if is_equals c2 then rev r else rev (c2 :: r)
        else data
    | [c1] => if is_equals c1 then [] else data
    | [] => data
    end
  else data.

(** Steps 5 to 8: six bits per character are appended to a buffer, which
    is flushed as three bytes whenever it holds 24 bits. *)
Record acc := { acc_bits : N; acc_count : nat; acc_out : list ascii }.

Definition push (a : acc) (v : N) : acc :=
  let bits := (acc_bits a * 64 + v)%N in
  let count := (acc_count a + 6)%nat in
  if (count =? 24)%nat then
    {| acc_bits := 0; acc_count := 0;
       acc_out := acc_out a ++
         [ascii_of_N (bits / 65536); ascii_of_N (bits / 256 mod 256);
          ascii_of_N (bits mod 256)] |}
  else {| acc_bits := bits; acc_count := count; acc_out := acc_out a |}.

(** Step 9: 12 left-over bits give one byte (the last four are dropped),
    18 give two (the last two are dropped). *)
Definition flush (a : acc) : list ascii :=
  if (acc_count a =? 12)%nat then
    acc_out a ++ [ascii_of_N (acc_bits a / 16)]
  else if (acc_count a =? 18)%nat then
    acc_out a ++ [ascii_of_N (acc_bits a / 4 / 256);
                  ascii_of_N (acc_bits a / 4 mod 256)]
  else acc_out a.

Definition sextets (data : list ascii) : list N :=
  omap sextet data.

Definition initial : acc := {| acc_bits := 0; acc_count := 0; acc_out := [] |}.

(** Steps 1 and 2: the text without ASCII whitespace and padding. *)
Definition cleaned (s : string) : list ascii :=
  strip_padding (filter (λ c, is_ascii_whitespace c = false)
                        (list_ascii_of_string s)).

Definition forgiving_decode (s : string) : option string :=
  let data := cleaned s in
  if (length data mod 4 =? 1)%nat then None
  else if forallb in_alphabet data then
    Some (string_of_list_ascii (flush (foldl push initial (sextets data))))
  else None.

Definition atob (s : string) : Result string :=
  match forgiving_decode s with
  | Some bin => Ok bin
  | None => Throw InvalidCharacterError
  end.

End Base64.

(** ** [decode]: base64 text to bytes

    [bytes[i] = binaryString.charCodeAt(i)] for every index: the result has
    one byte per character of the binary string. *)
Definition Uint8Array := list byte.

Definition decode (base64 : string) : Result Uint8Array :=
  binaryString ← Base64.atob base64;
  Ok (map byte_of_ascii (list_ascii_of_string binaryString)).

(** ** Typed arrays over the decoded bytes *)

(** One element of an [Int16Array] view: two bytes, least significant
    first (typed arrays use the platform's byte order, little-endian on
    every platform the application runs on), read as a two's-complement
    16-bit integer. *)
Definition int16_of_bytes (lo hi : byte) : Z :=
  let u := Z.of_N (Byte.to_N lo) + 256 * Z.of_N (Byte.to_N hi) in
  if u <? 32768 then u else u - 65536.

Fixpoint int16_elements (bytes : list byte) : list Z :=
  match bytes with
  | lo :: hi :: rest => int16_of_bytes lo hi :: int16_elements rest
  | _ => []
  end.

(** [new Int16Array(data.buffer)]: the view covers the whole buffer of the
    byte array (the array [decode] builds owns a buffer of exactly its
    length) and the constructor throws a [RangeError] when the byte length
    is not a multiple of the element size. *)
Definition Int16Array (buffer : Uint8Array) : Result (list Z) :=
  if (length buffer mod 2 =? 0)%nat then Ok (int16_elements buffer)
  else Throw RangeError.

(** ** Sample arithmetic *)

(** An integer element read from the view, as a JavaScript number. *)
Definition number_of_Z (x : Z) : float :=
  if x <? 0 then PrimFloat.opp (PrimFloat.of_uint63 (Uint63.of_Z (- x)))
  else PrimFloat.of_uint63 (Uint63.of_Z x).

(** [dataInt16[k] / 32768.0]: an index past the end of the view reads
    [undefined], and [undefined / 32768.0] is [NaN]. *)
Definition div_32768 (element : option Z) : float :=
  match element with
  | Some x => (number_of_Z x / 32768)%float
  | None => PrimFloat.nan
  end.

(** A store into a [Float32Array] rounds the number to the nearest
    binary32 value (ties to even). *)
Definition fround (x : float) : float :=
  match Prim2SF x with
  | S754_finite s m e =>
      SF2Prim (binary_normalize 24 128 (if s then Z.neg m else Z.pos m) e s)
  | _ => x
  end.

(** ** The Web Audio buffer *)

Record AudioBuffer := {
  numberOfChannels : nat;
  frames : nat;                       (* the [length] attribute *)
  sampleRate : Z;
  channelData : list (list float)     (* one [Float32Array] per channel *)
}.

(** What the platform's audio implementation supports: the standard leaves
    the largest channel count (at least 32) and the range of buffer rates
    (at least 8000 to 96000 Hz) to the implementation. *)
Record Platform := {
  maxChannelCount : nat;
  minBufferRate : Z;
  maxBufferRate : Z
}.

(** [new AudioContext({ sampleRate })] *)
Record AudioContext := {
  platform : Platform;
  contextRate : Z
}.

(** [ctx.createBuffer(numberOfChannels, length, sampleRate)]: throws
    [NotSupportedError] when an argument is zero or outside its range;
    otherwise the buffer is silent (all zeros). *)
Definition createBuffer (ctx : AudioContext) (channels len : nat) (rate : Z)
  : Result AudioBuffer :=
  if (channels =? 0)%nat || (maxChannelCount (platform ctx) <? channels)%nat
     || (len =? 0)%nat
     || (rate <? minBufferRate (platform ctx))
     || (maxBufferRate (platform ctx) <? rate)
  then Throw NotSupportedError
  else Ok {| numberOfChannels := channels;
             frames := len;
             sampleRate := rate;
             channelData := replicate channels (replicate len 0%float) |}.

(** [buffer.getChannelData(channel)]: throws [IndexSizeError] for a channel
    the buffer does not have. *)
Definition getChannelData (buffer : AudioBuffer) (channel : nat)
  : Result (list float) :=
  match channelData buffer !! channel with
  | Some data => Ok data
  | None => Throw IndexSizeError
  end.

Definition setChannelData (buffer : AudioBuffer) (channel : nat)
    (data : list float) : AudioBuffer :=
  {| numberOfChannels := numberOfChannels buffer;
     frames := frames buffer;
     sampleRate := sampleRate buffer;
     channelData := <[channel := data]> (channelData buffer) |}.

(** ** [decodeAudioData] *)

(** [frameCount = dataInt16.length / numChannels] is a JavaScript number,
    not an integer.  It is kept as the exact quotient of the two sizes: for
    operands below 2^53 the rounded binary64 quotient has the same integer
    part as the exact one and compares with every integer the same way. *)
Record Quotient := { numer : nat; denom : nat }.

(** Conversion to Web IDL [unsigned long]: truncation, and 0 for [NaN] and
    [Infinity] (a zero denominator; [x / 0 = 0] on [nat]). *)
Definition to_unsigned_long (q : Quotient) : nat := (numer q / denom q)%nat.

(** [i < q] for an integer [i] (false against [NaN], true against
    [Infinity]). *)
Definition index_lt (i : nat) (q : Quotient) : bool :=
  (i * denom q <? numer q)%nat.

(** [for (let i = start; i < bound; i++) state = body(i, state)], with a
    bound on the number of iterations. *)
Fixpoint for_lt {St : Type} (fuel : nat) (i : nat) (bound : Quotient)
    (body : nat → St → St) (state : St) : St :=
  match fuel with
  | O => state
  | S fuel' =>
      if index_lt i bound then for_lt fuel' (S i) bound body (body i state)
      else state
  end.

(** The inner loop over the frames of one channel.  A store past the end
    of a typed array is ignored, as stdpp's list insert is.  With at least
    one channel the loop ends because [i < frameCount] fails, within
    [length dataInt16] iterations; the bound given to [for_lt] is not what
    stops it (lemma [fill_channel_fuel]). *)
Definition fill_channel (dataInt16 : list Z) (numChannels : nat)
    (frameCount : Quotient) (channel : nat) (data : list float) : list float :=
  for_lt (S (length dataInt16)) 0 frameCount
    (λ i data,
       <[i := fround (div_32768 (dataInt16 !! (i * numChannels + channel)%nat))]> data)
    data.

(** The outer loop over the channels.  [getChannelData] returns the
    array of the buffer itself, so the stores of the inner loop are stores
    into the buffer. *)
Fixpoint fill_channels (dataInt16 : list Z) (numChannels : nat)
    (frameCount : Quotient) (todo : list nat) (buffer : AudioBuffer)
  : Result AudioBuffer :=
  match todo with
  | [] => Ok buffer
  | channel :: rest =>
      data ← getChannelData buffer channel;
      fill_channels dataInt16 numChannels frameCount rest
        (setChannelData buffer channel
           (fill_channel dataInt16 numChannels frameCount channel data))
  end.

Definition decodeAudioData (data : Uint8Array) (ctx : AudioContext)
    (sampleRate : Z) (numChannels : nat) : Result AudioBuffer :=
  dataInt16 ← Int16Array data;
  let frameCount := {| numer := length dataInt16; denom := numChannels |} in
  buffer ← createBuffer ctx numChannels (to_unsigned_long frameCount) sampleRate;
  fill_channels dataInt16 numChannels frameCount (seq 0 numChannels) buffer.

(** ** The playback controller

    The player object, the source nodes it has created and the [load()]
    calls suspended at their [await] form the state; what a call makes
    observable outside the player is a list of events. *)

(** The life of an [AudioBufferSourceNode]: created, started, stopped by
    [stop()] with its [ended] event still to be dispatched, and done once
    [ended] has been dispatched.  The event is dispatched once per node,
    after the buffer has been played to its end or after [stop()]. *)
Inductive NodePhase := Idle | Started | Stopped | Ended.

(** The only function the player ever assigns to [onended]: the arrow
    function in [play()]. *)
Inductive Handler := EndedClosure.

Record AudioBufferSourceNode := {
  buffer : option AudioBuffer;
  connected : bool;
  onended : option Handler;
  phase : NodePhase
}.

(** A completion callback supplied by the caller, known by a name: calling
    it is an event.  (The callback of this application only sets component
    state; it does not call back into the player.) *)
Definition Callback := nat.

Record AudioPlayer := {
  base64Audio : string;
  audioContext : AudioContext;
  audioBuffer : option AudioBuffer;
  sourceNode : option nat;               (* a reference into the node heap *)
  onEndedCallback : option Callback
}.

(** The controller states of the specification, read off the fields. *)
Inductive PlaybackState := Unloaded | Loaded | Playing.

Definition state_of (p : AudioPlayer) : PlaybackState :=
  match audioBuffer p, sourceNode p with
  | None, _ => Unloaded
  | Some _, None => Loaded
  | Some _, Some _ => Playing
  end.

Inductive Event :=
  | ConsoleError (message : string)       (* console.error *)
  | DecodeAttempt                         (* load() ran the decoders *)
  | LoadRejected (e : JsError)            (* the promise of load() rejects *)
  | SinkStart (node : nat) (offset : nat) (* node.start() *)
  | SinkStop (node : nat)                 (* node.stop() *)
  | Fired (node : nat) (cb : Callback) (seen : PlaybackState).
      (* the ended event of [node] called [cb], which saw state [seen] *)

Record World := {
  player : AudioPlayer;
  nodes : list AudioBufferSourceNode;
  awaiting : list (Result AudioBuffer)   (* load() calls suspended at await *)
}.

Definition set_audioBuffer (b : option AudioBuffer) (p : AudioPlayer) :=
  {| base64Audio := base64Audio p; audioContext := audioContext p;
     audioBuffer := b; sourceNode := sourceNode p;
     onEndedCallback := onEndedCallback p |}.

Definition set_sourceNode (n : option nat) (p : AudioPlayer) :=
  {| base64Audio := base64Audio p; audioContext := audioContext p;
     audioBuffer := audioBuffer p; sourceNode := n;
     onEndedCallback := onEndedCallback p |}.

Definition set_onEndedCallback (cb : option Callback) (p : AudioPlayer) :=
  {| base64Audio := base64Audio p; audioContext := audioContext p;
     audioBuffer := audioBuffer p; sourceNode := sourceNode p;
     onEndedCallback := cb |}.

Definition with_player (f : AudioPlayer → AudioPlayer) (w : World) : World :=
  {| player := f (player w); nodes := nodes w; awaiting := awaiting w |}.

Definition with_nodes (f : list AudioBufferSourceNode → list AudioBufferSourceNode)
    (w : World) : World :=
  {| player := player w; nodes := f (nodes w); awaiting := awaiting w |}.

Definition with_awaiting (f : list (Result AudioBuffer) → list (Result AudioBuffer))
    (w : World) : World :=
  {| player := player w; nodes := nodes w; awaiting := f (awaiting w) |}.

Definition set_buffer (b : option AudioBuffer) (nd : AudioBufferSourceNode) :=
  {| buffer := b; connected := connected nd; onended := onended nd;
     phase := phase nd |}.

Definition set_connected (c : bool) (nd : AudioBufferSourceNode) :=
  {| buffer := buffer nd; connected := c; onended := onended nd;
     phase := phase nd |}.

Definition set_onended (h : option Handler) (nd : AudioBufferSourceNode) :=
  {| buffer := buffer nd; connected := connected nd; onended := h;
     phase := phase nd |}.

Definition set_phase (ph : NodePhase) (nd : AudioBufferSourceNode) :=
  {| buffer := buffer nd; connected := connected nd; onended := onended nd;
     phase := ph |}.

(** A field update through a node reference. *)
Definition update_node (n : nat) (f : AudioBufferSourceNode → AudioBufferSourceNode)
    (w : World) : World :=
  with_nodes (alter f n) w.

(** [new AudioPlayer(base64Audio)] *)
Definition new_AudioPlayer (pf : Platform) (base64 : string) : World :=
  {| player := {| base64Audio := base64;
                  audioContext := {| platform := pf; contextRate := 24000 |};
                  audioBuffer := None;
                  sourceNode := None;
                  onEndedCallback := None |};
     nodes := [];
     awaiting := [] |}.

(** [load()] up to its [await].  [decodeAudioData] is an [async] function
    without an [await] of its own: it runs to its end inside the call, and
    only the assignment of its result waits for the next microtask. *)
Definition load (w : World) : World * list Event :=
  match audioBuffer (player w) with
  | Some _ => (w, [])
  | None =>
      match decode (base64Audio (player w)) with
      | Throw e => (w, [DecodeAttempt; LoadRejected e])
      | Ok decoded =>
          (with_awaiting
             (λ q, q ++ [decodeAudioData decoded (audioContext (player w)) 24000 1])
             w,
           [DecodeAttempt])
      end
  end.

(** [load()] after its [await]: the [k]-th suspended call resumes and
    assigns the buffer, or rejects when [decodeAudioData] threw. *)
Definition load_resume (k : nat) (w : World) : World * list Event :=
  match awaiting w !! k with
  | None => (w, [])
  | Some r =>
      let w := with_awaiting (delete k) w in
      match r with
      | Ok b => (with_player (set_audioBuffer (Some b)) w, [])
      | Throw e => (w, [LoadRejected e])
      end
  end.

(** [node.stop()]: a started node stops playing and its [ended] event
    becomes due; on a node that has finished it changes nothing.  (On a
    node that was never started it would throw; the player starts every
    node in the call that creates it.) *)
Definition node_stop (nd : AudioBufferSourceNode) : AudioBufferSourceNode :=
  match phase nd with
  | Started => set_phase Stopped nd
  | _ => nd
  end.

Definition stop (w : World) : World * list Event :=
  match sourceNode (player w) with
  | Some n =>
      let w := update_node n (set_onended None) w in
      let w := update_node n node_stop w in
      let w := with_player (set_sourceNode None) w in
      (w, [SinkStop n])
  | None => (w, [])
  end.

Definition play (w : World) : World * list Event :=
  match audioBuffer (player w) with
  | None => (w, [ConsoleError "Audio not loaded yet."])
  | Some _ =>
      let '(w, stopped) :=
        match sourceNode (player w) with
        | Some _ => stop w
        | None => (w, [])
        end in
      (* createBufferSource: a fresh node *)
      let n := length (nodes w) in
      let w := with_nodes
                 (λ h, h ++ [{| buffer := None; connected := false;
                                onended := None; phase := Idle |}]) w in
      let w := with_player (set_sourceNode (Some n)) w in
      let w := update_node n (set_buffer (audioBuffer (player w))) w in
      let w := update_node n (set_connected true) w in
      let w := update_node n (set_onended (Some EndedClosure)) w in
      (* start(): from the beginning of the buffer *)
      let w := update_node n (set_phase Started) w in
      (w, stopped ++ [SinkStart n 0])
  end.

Definition onEnded (callback : Callback) (w : World) : World * list Event :=
  (with_player (set_onEndedCallback (Some callback)) w, []).

(** The body of the arrow function assigned to [onended]. *)
Definition ended_closure (n : nat) (w : World) : World * list Event :=
  let w := with_player (set_sourceNode None) w in
  match onEndedCallback (player w) with
  | Some cb => (w, [Fired n cb (state_of (player w))])
  | None => (w, [])
  end.

(** The platform dispatches [ended] at node [n]: due when the node has
    played to its end or was stopped, and not dispatched before.  The
    handler attribute is read when the event is dispatched. *)
Definition dispatch_ended (n : nat) (w : World) : World * list Event :=
  match nodes w !! n with
  | Some nd =>
      match phase nd with
      | Started | Stopped =>
          let w := update_node n (set_phase Ended) w in
          match onended nd with
          | Some EndedClosure => ended_closure n w
          | None => (w, [])
          end
      | Idle | Ended => (w, [])
      end
  | None => (w, [])
  end.

(** What can happen to a player: the caller's calls, the resumption of a
    suspended [load()], and the platform's [ended] events, in any order. *)
Inductive Action :=
  | CallLoad
  | ResumeLoad (k : nat)
  | CallPlay
  | CallStop
  | CallOnEnded (callback : Callback)
  | EndedEvent (node : nat).

Definition step (a : Action) (w : World) : World * list Event :=
  match a with
  | CallLoad => load w
  | ResumeLoad k => load_resume k w
  | CallPlay => play w
  | CallStop => stop w
  | CallOnEnded cb => onEnded cb w
  | EndedEvent n => dispatch_ended n w
  end.

Fixpoint run (acts : list Action) (w : World) : World * list Event :=
  match acts with
  | [] => (w, [])
  | a :: rest =>
      let '(w1, ev1) := step a w in
      let '(w2, ev2) := run rest w1 in
      (w2, ev1 ++ ev2)
  end.

(** The states a player can be in. *)
Definition reachable (w : World) : Prop :=
  ∃ pf base64 acts, (run acts (new_AudioPlayer pf base64)).1 = w.

(** ** The standard encoder

    The base64 encoding of RFC 4648 (section 4), which the platform offers
    as [btoa].  The player never encodes; the encoder is here to state
    what [decode] returns on the texts an encoder produces. *)
Module Base64Encoder.

Definition alphabet (v : N) : ascii :=
ascii_of_N (if v <? 26 then v + 65
            else if v <? 52 then v + 71
            else if v <? 62 then v - 4
            else if v =? 62 then 43 else 47)%N.

(** The 6-bit groups of the bytes, most significant first; the last group
  of an incomplete triple is filled with zero bits. *)
Fixpoint groups (bytes : list byte) : list N :=
match bytes with
| a :: b :: c :: rest =>
    let n := (Byte.to_N a * 65536 + Byte.to_N b * 256 + Byte.to_N c)%N in
    (n / 262144 :: n / 4096 mod 64 :: n / 64 mod 64 :: n mod 64
       :: groups rest)%N
| [a; b] =>
    let n := ((Byte.to_N a * 256 + Byte.to_N b) * 4)%N in
    [n / 4096; n / 64 mod 64; n mod 64]%N
| [a] =>
    let n := (Byte.to_N a * 16)%N in
    [n / 64; n mod 64]%N
| [] => []
end.

Definition padding (bytes : list byte) : list ascii :=
replicate ((3 - length bytes mod 3) mod 3) (ascii_of_N 61).

Definition btoa (bytes : list byte) : string :=
string_of_list_ascii (map alphabet (groups bytes) ++ padding bytes).

(** The check made on each of the 64 values: the decoder's table inverts
  the alphabet, and no character of the alphabet is whitespace or the
  padding character. *)
Definition alphabet_ok (v : N) : bool :=
match Base64.sextet (alphabet v) with
| Some u => (u =? v)%N
| None => false
end
&& negb (Base64.is_ascii_whitespace (alphabet v))
&& negb (Base64.is_equals (alphabet v)).

End Base64Encoder.

(** ** Checks by evaluation

    The arithmetic of one sample involves a binary64 division and a
    rounding to binary32.  Its properties over the 65536 values of a
    16-bit integer are established by evaluating both on every value. *)

(** What is checked for the element [x]: the quotient is a binary32 value
    already (the store does not round), multiplying it back by 32768 gives
    the element (the division does not round either), and it lies in
    [-1, 1). *)
Definition sample_ok (x : Z) : bool :=
  let q := (number_of_Z x / 32768)%float in
  let v := fround (div_32768 (Some x)) in
  (v =? q)%float && (v * 32768 =? number_of_Z x)%float
  && (-1 <=? v)%float && (v <=? 1)%float && (v <? 1)%float.

(** [f] holds on the [2 ^ k] integers from [x] on. *)
Fixpoint all_from (k : nat) (f : Z → bool) (x : Z) : bool :=
  match k with
  | O => f x
  | S k' => all_from k' f x && all_from k' f (x + 2 ^ Z.of_nat k')
  end.

(** ** Invariants of the player *)

(** The [ended] event of a node can still run the handler of [play()]:
    the handler is attached and the event has not been dispatched. *)
Definition can_fire (nd : AudioBufferSourceNode) : bool :=
  match onended nd, phase nd with
  | Some _, (Started | Stopped) => true
  | _, _ => false
  end.

(** Node [n] exists and its [ended] event can no longer reach the player. *)
Definition silent (n : nat) (w : World) : Prop :=
  ∃ nd, nodes w !! n = Some nd ∧ can_fire nd = false.

(** What [load()] computes from the fields of the player. *)
Definition pipeline (p : AudioPlayer) : Result AudioBuffer :=
  decoded ← decode (base64Audio p);
  decodeAudioData decoded (audioContext p) 24000 1.

Record consistent (w : World) : Prop := {
  (** the session of the player is a started node with the handler
      attached, and a player with a session has a buffer *)
  session_started : ∀ n, sourceNode (player w) = Some n →
    is_Some (audioBuffer (player w))
    ∧ ∃ nd, nodes w !! n = Some nd
            ∧ onended nd = Some EndedClosure ∧ phase nd = Started;
  (** no other node can reach the player *)
  session_only : ∀ n nd, nodes w !! n = Some nd → can_fire nd = true →
    sourceNode (player w) = Some n;
  (** every suspended load holds the result of the same computation *)
  awaiting_pipeline : ∀ r, r ∈ awaiting w → r = pipeline (player w);
  (** and so does the cache *)
  cached_pipeline : ∀ b, audioBuffer (player w) = Some b →
    pipeline (player w) = Ok b;
  (** the context is the one the constructor made *)
  context_rate : contextRate (audioContext (player w)) = 24000
}.

(** The events by which the caller of a method is told of a failure: the
    rejection of the promise of [load()].  No method of the class has a
    [throw] of its own and none returns a value; what [console.error]
    writes does not reach the caller. *)
Definition reaches_caller (ev : Event) : bool :=
  match ev with
  | LoadRejected _ => true
  | _ => false
  end.

Definition is_decode (ev : Event) : bool :=
  match ev with
  | DecodeAttempt => true
  | _ => false
  end.

(** How many times the decoders were run. *)
Definition decode_count (evs : list Event) : nat :=
  length (List.filter is_decode evs).

(** No event of the list is a completion callback called for node [n]. *)
Definition never_fired (n : nat) (evs : list Event) : Prop :=
  ∀ cb seen, Fired n cb seen ∉ evs.

Definition is_fired (n : nat) (e : Event) : bool :=
  match e with
  | Fired m _ _ => (n =? m)%nat
  | _ => false
  end.

(** How many times a completion callback was called for node [n]. *)
Definition fired_count (n : nat) (evs : list Event) : nat :=
  length (List.filter (is_fired n) evs).

(** ** Concrete inputs used for evaluation *)

(** The limits every implementation of the Web Audio API must at least
    support. *)
Definition reference_platform : Platform :=
  {| maxChannelCount := 32; minBufferRate := 8000; maxBufferRate := 96000 |}.

Definition reference_context : AudioContext :=
  {| platform := reference_platform; contextRate := 24000 |}.

(** The samples -32768 and 32767, and their base64 text. *)
Definition two_samples : Uint8Array := [x00; x80; xff; x7f].

Definition two_samples_base64 : string := "AID/fw==".

(** The samples -32768, 32767 and 1: one frame and a half of stereo. *)
Definition three_samples : Uint8Array := [x00; x80; xff; x7f; x01; x00].

(** A player that has loaded its payload, and one that is playing it with
    the completion callback 7 registered. *)
Definition loaded_world : World :=
  (run [CallLoad; ResumeLoad 0%nat]
       (new_AudioPlayer reference_platform two_samples_base64)).1.

Definition playing_world : World :=
  (run [CallLoad; ResumeLoad 0%nat; CallOnEnded 7%nat; CallPlay]
       (new_AudioPlayer reference_platform two_samples_base64)).1.

(** ** Tactics *)

(** Linear arithmetic with division and remainder by constants. *)
Ltac lia_div := zify; Z.to_euclidean_division_equations; lia.

(** ** When [createBuffer] refuses the arguments [decodeAudioData] gives it

    The channel count is zero or above what the platform supports, the
    bytes hold fewer samples than there are channels (no whole frame), or
    the rate is outside the platform's range. *)
Definition unsupported (ctx : AudioContext) (rate : Z) (numChannels : nat)
    (byteLength : nat) : Prop :=
  numChannels = 0%nat
  ∨ (maxChannelCount (platform ctx) < numChannels)%nat
  ∨ (byteLength / 2 < numChannels)%nat
  ∨ rate < minBufferRate (platform ctx)
  ∨ maxBufferRate (platform ctx) < rate.

(** ** More invariants of the player *)

(** A source node of player [p] is started, connected and plays the
    decoded payload, and while it is still playing it has the handler of
    [play()] attached. *)
Definition node_ok (p : AudioPlayer) (nd : AudioBufferSourceNode) : Prop :=
  phase nd ≠ Idle
  ∧ connected nd = true
  ∧ (∃ b, buffer nd = Some b ∧ pipeline p = Ok b)
  ∧ (phase nd = Started → onended nd = Some EndedClosure).

Definition heap_ok (w : World) : Prop :=
  ∀ n nd, nodes w !! n = Some nd → node_ok (player w) nd.

(** The events of a run so far agree with the heap: a node that was
    stopped, or whose completion was reported, is silent. *)
Definition settled (evs : list Event) (w : World) : Prop :=
  ∀ n, (SinkStop n ∈ evs ∨ ∃ cb seen, Fired n cb seen ∈ evs) → silent n w.



(** A player that was told to play twice: node 0 was replaced by node 1. *)
Definition replaying_world : World :=
  (run [CallLoad; ResumeLoad 0%nat; CallOnEnded 7%nat; CallPlay; CallPlay]
       (new_AudioPlayer reference_platform two_samples_base64)).1.

(** Every node of the heap was started through the sink. *)
Definition all_started (evs : list Event) (w : World) : Prop :=
  ∀ n, (n < length (nodes w))%nat → SinkStart n 0 ∈ evs.

(** * The generation service and the application shell

    [services/geminiService.ts] and [App.tsx].  What the browser and the
    service answer is not decided by the program: it is given by a record
    of the platform's functions, and every property is stated for all of
    them.  An asynchronous function has one of three outcomes: its promise
    resolves, it rejects with the value thrown, or it never settles.  A
    string is the sequence of its code units, which [String.length]
    counts. *)

(** A thrown value: an [Error] with its message, or anything else. *)
Inductive Thrown :=
  | ThrownError (message : string)
  | ThrownOther.

Inductive Outcome (A : Type) :=
  | Resolved (a : A)
  | Rejected (t : Thrown)
  | Never.
Arguments Resolved {A} a.
Arguments Rejected {A} t.
Arguments Never {A}.

#[global] Instance Outcome_bind : MBind Outcome := λ A B k o,
  match o with
  | Resolved a => k a
  | Rejected t => Rejected t
  | Never => Never
  end.

(** ** Requests and responses of [ai.models.generateContent] *)

Inductive RequestPart :=
  | TextPart (text : string)
  | InlinePart (data : option string) (mimeType : string).

Record Request := {
  req_model : string;
  req_parts : list RequestPart;
  req_googleSearch : bool;          (* config.tools: [{ googleSearch: {} }] *)
  req_audio : bool;                 (* config.responseModalities: [AUDIO] *)
  req_voiceName : option string
}.

Record WebSource := { uri : string; title : string }.
Record GroundingChunk := { web : option WebSource }.
Record GroundingMetadata := { groundingChunks : option (list GroundingChunk) }.
Record Blob := { data : option string }.
Record ResponsePart := { inlineData : option Blob }.
Record Content := { parts : option (list ResponsePart) }.
Record Candidate := {
  content : option Content;
  groundingMetadata : option GroundingMetadata
}.
Record Response := {
  resp_text : option string;        (* the [text] accessor *)
  candidates : option (list Candidate)
}.

Record File := { file_type : string; file_bytes : list byte }.

(** What the program takes from its platform.  The reader and the service
    need not answer twice alike: their answers are given for each call of
    [handleImageUpload], told apart by a number ([call]), within which no
    two requests are the same. *)
Record Browser := {
  trim : string → string;                    (* String.prototype.trim *)
  toLowerCase : string → string;             (* String.prototype.toLowerCase *)
  reader_result : nat → File → option string;  (* FileReader.result at loadend *)
  generateContent : nat → Request → Outcome Response;
  undefined_message : string                 (* of the TypeError for x.trim() on undefined *)
}.

(** [x?.[0]] *)
Definition first {A} (x : option (list A)) : option A := x ≫= head.

(** JavaScript truthiness of a string that may be [undefined]. *)
Definition truthy (x : option string) : bool :=
  match x with
  | Some s => negb (String.eqb s EmptyString)
  | None => false
  end.

(** [s.split(sep)] for a separator of one character. *)
Fixpoint split (sep : ascii) (s : string) : list string :=
  match s with
  | EmptyString => [EmptyString]
  | String c rest =>
      if Ascii.eqb c sep then EmptyString :: split sep rest
      else match split sep rest with
           | piece :: pieces => String c piece :: pieces
           | [] => [String c EmptyString]
           end
  end.

Definition comma : ascii := ascii_of_N 44.

Fixpoint contains (c : ascii) (s : string) : bool :=
  match s with
  | EmptyString => false
  | String d rest => Ascii.eqb d c || contains c rest
  end.

(** What [readAsDataURL] leaves in [reader.result] when it succeeds
    (File API, packaging data as a data URL): the media type, if any, and
    the base64 encoding of the bytes. *)
Definition data_url (media : string) (bytes : list byte) : string :=
  "data:" ++ media ++ ";base64," ++ Base64Encoder.btoa bytes.

(** [fileToGenerativePart]: the promise resolves in [onloadend] only when
    the reader has a string; there is no other path, so with a failed
    read it never settles. *)
Definition fileToGenerativePart (br : Browser) (call : nat) (file : File)
  : Outcome RequestPart :=
  match reader_result br call file with
  | Some result => Resolved (InlinePart (split comma result !! 1%nat) (file_type file))
  | None => Never
  end.

Record Analysis := {
  name : string;
  text : option string;
  sources : list GroundingChunk
}.

Definition landmarkNamePrompt : string :=
  "Identify the primary landmark in this photo. Respond with only the name of the landmark. If it's not a famous landmark, say 'Unknown'.".

Definition historyPrompt (landmarkName : string) (userPrompt : option string)
  : string :=
  if truthy userPrompt then
    "Regarding the landmark " ++ String (ascii_of_N 34) landmarkName
      ++ String (ascii_of_N 34) ", answer the user's question: "
      ++ String (ascii_of_N 34) (default EmptyString userPrompt)
      ++ String (ascii_of_N 34) ". Provide a concise, engaging answer under 150 words."
  else
    "Provide a concise, engaging history of " ++ landmarkName
      ++ ". Focus on its origin, significance, and one interesting fact. Keep it under 150 words.".

Definition landmarkRequest (imagePart : RequestPart) : Request :=
  {| req_model := "gemini-2.5-flash";
     req_parts := [imagePart; TextPart landmarkNamePrompt];
     req_googleSearch := false; req_audio := false; req_voiceName := None |}.

Definition historyRequest (landmarkName : string) (userPrompt : option string)
  : Request :=
  {| req_model := "gemini-2.5-flash";
     req_parts := [TextPart (historyPrompt landmarkName userPrompt)];
     req_googleSearch := true; req_audio := false; req_voiceName := None |}.

(** [analyzeImageAndFetchHistory] *)
Definition analyzeImageAndFetchHistory (br : Browser) (call : nat)
    (file : File) (userPrompt : option string) : Outcome Analysis :=
  imagePart ← fileToGenerativePart br call file;
  landmarkResult ← generateContent br call (landmarkRequest imagePart);
  match resp_text landmarkResult with
  | None => Rejected (ThrownError (undefined_message br))
  | Some t =>
      let landmarkName := trim br t in
      if String.eqb (toLowerCase br landmarkName) "unknown"
         || (String.length landmarkName <? 3)%nat
      then Rejected (ThrownError "Could not recognize a famous landmark in the image.")
      else
        historyResult ← generateContent br call
                          (historyRequest landmarkName userPrompt);
        Resolved
          {| name := landmarkName;
             text := resp_text historyResult;
             sources :=
               default []
                 (c ← first (candidates historyResult);
                  m ← groundingMetadata c;
                  groundingChunks m) |}
  end.

Definition narrationRequest (textToNarrate : string) : Request :=
  {| req_model := "gemini-2.5-flash-preview-tts";
     req_parts :=
       [TextPart ("Narrate this history in a clear and engaging tone: "
                  ++ textToNarrate)];
     req_googleSearch := false; req_audio := true;
     req_voiceName := Some "Zephyr" |}.

(** [generateNarration] *)
Definition generateNarration (br : Browser) (call : nat)
    (textToNarrate : string) : Outcome string :=
  result ← generateContent br call (narrationRequest textToNarrate);
  let audioData :=
    c ← first (candidates result);
    ct ← content c;
    p ← first (parts ct);
    i ← inlineData p;
    data i in
  if truthy audioData then Resolved (default EmptyString audioData)
  else Rejected (ThrownError "Failed to generate audio narration.").

(** ** [types.ts]

    An object URL is known by the number [URL.createObjectURL] gave it;
    the fields [name], [sources] and [imageUrl] carry a prefix, their
    plain names being those of the analysis result. *)
Record LandmarkInfo := {
  info_name : string;
  history : string;
  info_sources : list GroundingChunk;
  audioBase64 : string;
  info_imageUrl : nat
}.

(** ** [App.tsx]

    The component's five state variables, and beside them what lives
    outside React: the registry of object URLs, the calls of
    [handleImageUpload] that are suspended at an [await], and the console.
    A call of [handleImageUpload] runs in up to three pieces, one before
    each [await] and one after the last. *)
Module App.

Inductive AppStep := UPLOAD | PROCESSING | RESULT | ERROR.

(** Where a call of [handleImageUpload] stands, with the outcome of the
  promise it waits for. *)
Inductive Stage :=
| AwaitAnalysis (pending : Outcome Analysis)
| AwaitNarration (landmarkName : Analysis) (pending : Outcome string)
| Returned.

Record Upload := { localImageUrl : nat; stage : Stage }.

Record State := {
step : AppStep;
processingMessage : string;
landmarkInfo : option LandmarkInfo;
error : option string;
imageUrl : option nat;
objectUrls : list bool;          (* entry [u]: is object URL [u] still live *)
uploads : list Upload;
console : list Thrown
}.

Definition initial_state : State :=
{| step := UPLOAD; processingMessage := EmptyString; landmarkInfo := None;
   error := None; imageUrl := None;
   objectUrls := []; uploads := []; console := [] |}.

Definition setStep (v : AppStep) (s : State) : State :=
{| step := v; processingMessage := processingMessage s;
   landmarkInfo := landmarkInfo s; error := error s; imageUrl := imageUrl s;
   objectUrls := objectUrls s; uploads := uploads s; console := console s |}.

Definition setProcessingMessage (v : string) (s : State) : State :=
{| step := step s; processingMessage := v;
   landmarkInfo := landmarkInfo s; error := error s; imageUrl := imageUrl s;
   objectUrls := objectUrls s; uploads := uploads s; console := console s |}.

Definition setLandmarkInfo (v : option LandmarkInfo) (s : State) : State :=
{| step := step s; processingMessage := processingMessage s;
   landmarkInfo := v; error := error s; imageUrl := imageUrl s;
   objectUrls := objectUrls s; uploads := uploads s; console := console s |}.

Definition setError (v : option string) (s : State) : State :=
{| step := step s; processingMessage := processingMessage s;
   landmarkInfo := landmarkInfo s; error := v; imageUrl := imageUrl s;
   objectUrls := objectUrls s; uploads := uploads s; console := console s |}.

Definition setImageUrl (v : option nat) (s : State) : State :=
{| step := step s; processingMessage := processingMessage s;
   landmarkInfo := landmarkInfo s; error := error s; imageUrl := v;
   objectUrls := objectUrls s; uploads := uploads s; console := console s |}.

Definition with_objectUrls (f : list bool → list bool) (s : State) : State :=
{| step := step s; processingMessage := processingMessage s;
   landmarkInfo := landmarkInfo s; error := error s; imageUrl := imageUrl s;
   objectUrls := f (objectUrls s); uploads := uploads s;
   console := console s |}.

Definition with_uploads (f : list Upload → list Upload) (s : State) : State :=
{| step := step s; processingMessage := processingMessage s;
   landmarkInfo := landmarkInfo s; error := error s; imageUrl := imageUrl s;
   objectUrls := objectUrls s; uploads := f (uploads s);
   console := console s |}.

Definition console_error (t : Thrown) (s : State) : State :=
{| step := step s; processingMessage := processingMessage s;
   landmarkInfo := landmarkInfo s; error := error s; imageUrl := imageUrl s;
   objectUrls := objectUrls s; uploads := uploads s;
   console := console s ++ [t] |}.

Definition set_stage (v : Stage) (u : Upload) : Upload :=
{| localImageUrl := localImageUrl u; stage := v |}.

(** [handleImageUpload] up to its first [await]. *)
Definition handleImageUpload (br : Browser) (file : File)
  (userPrompt : option string) (s : State) : State :=
let s := setStep PROCESSING s in
let s := setError None s in
let s := setLandmarkInfo None s in
let localImageUrl := length (objectUrls s) in
let s := with_objectUrls (λ r, r ++ [true]) s in
let s := setImageUrl (Some localImageUrl) s in
let analysisMessage :=
  if truthy userPrompt then "Analyzing photo and your question..."
  else "Identifying landmark..." in
let s := setProcessingMessage ("Step 1/3: " ++ analysisMessage)%string s in
with_uploads
  (λ q, q ++ [{| localImageUrl := localImageUrl;
                 stage := AwaitAnalysis
                            (analyzeImageAndFetchHistory br (length q) file
                               userPrompt) |}])
  s.

(** The [catch] block. *)
Definition catch (k : nat) (e : Thrown) (s : State) : State :=
let s := with_uploads (alter (set_stage Returned) k) s in
let s := console_error e s in
let errorMessage :=
  match e with
  | ThrownError message => message
  | ThrownOther => "An unknown error occurred."
  end in
let s := setError (Some ("Analysis failed: " ++ errorMessage)%string) s in
setStep ERROR s.

(** The [k]-th call of [handleImageUpload] resumes when the promise it
  waits for has settled; a promise that never settles leaves it where it
  is. *)
Definition resume (br : Browser) (k : nat) (s : State) : State :=
match uploads s !! k with
| Some u =>
    match stage u with
    | AwaitAnalysis (Resolved landmarkName) =>
        if negb (truthy (text landmarkName)) then
          catch k (ThrownError "Could not identify a landmark in the photo or answer the question. Please try a clearer image or a different question.") s
        else
          let s := setProcessingMessage "Step 2/3: Generating narration..." s in
          with_uploads
            (alter (set_stage
                      (AwaitNarration landmarkName
                         (generateNarration br k
                            (default EmptyString (text landmarkName))))) k)
            s
    | AwaitNarration landmarkName (Resolved audioContent) =>
        let s := with_uploads (alter (set_stage Returned) k) s in
        let s := setProcessingMessage "Step 3/3: Finalizing..." s in
        let s := setLandmarkInfo
                   (Some {| info_name := name landmarkName;
                            history := default EmptyString (text landmarkName);
                            info_sources := sources landmarkName;
                            audioBase64 := audioContent;
                            info_imageUrl := localImageUrl u |}) s in
        setStep RESULT s
    | AwaitAnalysis (Rejected e) | AwaitNarration _ (Rejected e) => catch k e s
    | AwaitAnalysis Never | AwaitNarration _ Never | Returned => s
    end
| None => s
end.

Definition handleReset (s : State) : State :=
let s := match imageUrl s with
         | Some u => with_objectUrls (<[u := false]>) s
         | None => s
         end in
let s := setStep UPLOAD s in
let s := setError None s in
let s := setLandmarkInfo None s in
let s := setImageUrl None s in
setProcessingMessage EmptyString s.



Inductive AppAction :=
| ImageUploaded (file : File) (userPrompt : option string)
| Settled (k : nat)
| ResetClicked.

Definition app_step (br : Browser) (a : AppAction) (s : State) : State :=
match a with
| ImageUploaded file userPrompt => handleImageUpload br file userPrompt s
| Settled k => resume br k s
| ResetClicked => handleReset s
end.

Definition app_run (br : Browser) (acts : list AppAction) (s : State)
: State :=
foldl (λ s a, app_step br a s) s acts.



End App.

(** ** [components/ResultDisplay.tsx]

    One mounted [ResultDisplay] with its [info]: the two state variables,
    the variable [isMounted] of the effect, the call [loadAudio()], and
    the player it creates with the platform around it. *)
Module ResultDisplay.

(** Where [loadAudio()] stands: suspended at [await audioPlayer.load()]
  with that promise pending, with it fulfilled, rejected by it, or
  returned. *)
Inductive LoadAudio := Suspended | Fulfilled | Failed | Finished.

Record Component := {
isPlaying : bool;
isLoadingAudio : bool;
isMounted : bool;
loadAudio : LoadAudio;
audioPlayer : World
}.





Definition set_audioPlayer (w : World) (c : Component) : Component :=
{| isPlaying := isPlaying c; isLoadingAudio := isLoadingAudio c;
   isMounted := isMounted c; loadAudio := loadAudio c;
   audioPlayer := w |}.

(** A call on the player, from the component. *)
Definition call (f : World → World * list Event) (c : Component)
: Component * list Event :=
let '(w, evs) := f (audioPlayer c) in (set_audioPlayer w c, evs).















End ResultDisplay.

(** ** A browser and a service to run the shell on *)

Definition photo : File :=
  {| file_type := "image/jpeg"; file_bytes := [xff; xd8; xff] |}.

(** A service that names the landmark, tells its history with one source,
    and narrates with two samples of audio. *)
Definition reference_service (req : Request) : Outcome Response :=
  if req_audio req then
    Resolved
      {| resp_text := None;
         candidates :=
           Some [{| content :=
                      Some {| parts :=
                                Some [{| inlineData :=
                                           Some {| data := Some two_samples_base64 |} |}] |};
                    groundingMetadata := None |}] |}
  else if req_googleSearch req then
    Resolved
      {| resp_text := Some "Built for the World's Fair of 1889.";
         candidates :=
           Some [{| content := None;
                    groundingMetadata :=
                      Some {| groundingChunks :=
                                Some [{| web := Some {| uri := "https://example.org/tower";
                                                        title := "Tower" |} |}] |} |}] |}
  else Resolved {| resp_text := Some "Eiffel Tower"; candidates := None |}.

(** A browser whose reader succeeds, or fails, on every file; its strings
    are left as they are by [trim] and [toLowerCase]. *)
Definition browser (reads : bool) (service : Request → Outcome Response)
  : Browser :=
  {| trim := λ s, s;
     toLowerCase := λ s, s;
     reader_result := λ _ file,
       if reads then Some (data_url (file_type file) (file_bytes file))
       else None;
     generateContent := λ _, service;
     undefined_message := "Cannot read properties of undefined (reading 'trim')" |}.

Definition reference_browser : Browser := browser true reference_service.

(** ** Invariants of the shell *)






(** The object URLs that are live, and the calls of [handleImageUpload]
    that have not returned. *)
Definition live_urls (s : App.State) : nat :=
  length (filter (λ b : bool, b = true) (App.objectUrls s)).

Definition is_pending (u : App.Upload) : bool :=
  match App.stage u with App.Returned => false | _ => true end.

Definition pending_uploads (s : App.State) : nat :=
  length (filter (λ u, is_pending u = true) (App.uploads s)).


(** ** Invariants of the result screen *)





(** * Properties *)

(** ** The base64 decoder *)
Section DecodeFacts.
Import Base64.

Lemma forallb_false_witness {A} (f : A → bool) (l : list A) :
  forallb f l = false ↔ ∃ x, x ∈ l ∧ f x = false.
Proof.
  induction l as [|a l IH]; simpl.
  - split; [discriminate | intros (x & Hx & _); inversion Hx].
  - rewrite andb_false_iff, IH. split.
    + intros [Ha | (x & Hx & Hf)].
      * exists a. split; [left | exact Ha].
      * exists x. split; [right; exact Hx | exact Hf].
    + intros (x & Hx & Hf). inversion Hx; subst; [left | right]; eauto.
Qed.

Lemma sextets_length (data : list ascii) :
  forallb in_alphabet data = true → length (sextets data) = length data.
Proof.
  unfold sextets, in_alphabet. induction data as [|c data IH]; simpl; [done|].
  intros H. apply andb_true_iff in H as [Hc Hd].
  destruct (sextet c); [simpl; f_equal; auto | discriminate].
Qed.

(** The bit buffer after [n] more characters, starting with [r] pending
    characters: it holds the characters of the last incomplete group, and
    three bytes have been written for each complete group. *)
Lemma foldl_push_shape (l : list N) :
  ∀ (a : acc) (r : nat),
    (r < 4)%nat → acc_count a = (6 * r)%nat →
    acc_count (foldl push a l) = (6 * ((r + length l) mod 4))%nat
    ∧ length (acc_out (foldl push a l))
      = (length (acc_out a) + 3 * ((r + length l) / 4))%nat.
Proof.
  induction l as [|v l IH]; intros a r Hr Hc; cbn [foldl length].
  - rewrite Nat.add_0_r, Nat.mod_small, Nat.div_small by lia. lia.
  - assert (Hpush : if decide (r = 3%nat)
                    then acc_count (push a v) = (6 * 0)%nat
                         ∧ length (acc_out (push a v)) = (length (acc_out a) + 3)%nat
                    else acc_count (push a v) = (6 * S r)%nat
                         ∧ length (acc_out (push a v)) = length (acc_out a)).
    { unfold push. rewrite Hc. case_decide as Hd.
      - subst r. cbn. rewrite length_app. cbn. lia.
      - destruct (6 * r + 6 =? 24)%nat eqn:E; [apply Nat.eqb_eq in E; lia|].
        cbn [acc_count acc_out]. lia. }
    case_decide as Hd.
    + subst r. destruct Hpush as [P1 P2].
      destruct (IH (push a v) 0%nat ltac:(lia) P1) as [E1 E2].
      rewrite E1, E2, P2.
      replace (3 + S (length l))%nat with (0 + length l + 1 * 4)%nat by lia.
      rewrite Nat.Div0.mod_add, Nat.div_add by lia. lia.
    + destruct Hpush as [P1 P2].
      destruct (IH (push a v) (S r) ltac:(lia) P1) as [E1 E2].
      rewrite E1, E2, P2.
      replace (r + S (length l))%nat with (S r + length l)%nat by lia. done.
Qed.

Lemma flush_length (l : list N) :
  (length l mod 4 ≠ 1)%nat →
  length (flush (foldl push initial l)) = (length l * 3 / 4)%nat.
Proof.
  intros Hl.
  destruct (foldl_push_shape l initial 0%nat ltac:(lia) eq_refl) as [E1 E2].
  rewrite !Nat.add_0_l in E1, E2.
  change (length (acc_out initial)) with 0%nat in E2.
  unfold flush. rewrite E1.
  pose proof (Nat.div_mod_eq (length l) 4) as Hdm.
  pose proof (Nat.mod_upper_bound (length l) 4 ltac:(lia)) as Hub.
  assert (Hq : (length l * 3 / 4 = 3 * (length l / 4) + length l mod 4 * 3 / 4)%nat).
  { rewrite Hdm at 1.
    replace ((4 * (length l / 4) + length l mod 4) * 3)%nat
      with (length l mod 4 * 3 + (3 * (length l / 4)) * 4)%nat by lia.
    rewrite Nat.div_add by lia. lia. }
  rewrite Hq.
  assert (Hcase : (length l mod 4 = 0 ∨ length l mod 4 = 2 ∨ length l mod 4 = 3)%nat)
    by lia.
  destruct Hcase as [Hm | [Hm | Hm]]; rewrite Hm;
    cbn [Nat.mul Nat.add Nat.eqb]; rewrite ?length_app, E2; cbn; lia.
Qed.

Lemma decode_unfold (s : string) :
  decode s =
    if (length (cleaned s) mod 4 =? 1)%nat then Throw InvalidCharacterError
    else if forallb in_alphabet (cleaned s) then
      Ok (map byte_of_ascii (flush (foldl push initial (sextets (cleaned s)))))
    else Throw InvalidCharacterError.
Proof.
  unfold decode, atob, forgiving_decode.
  destruct (length (cleaned s) mod 4 =? 1)%nat; [reflexivity|].
  destruct (forallb in_alphabet (cleaned s)); [|reflexivity].
  unfold mbind, Result_bind. by rewrite list_ascii_of_string_of_list_ascii.
Qed.

End DecodeFacts.

(** C6 (as amended).  [decode] throws exactly when the text, once ASCII
    whitespace and the padding of a text whose length is a multiple of
    four are removed, has a length that leaves remainder 1 modulo 4 or
    holds a character outside the base64 alphabet; the only error is the
    one [atob] throws.  In every other case, the empty text included, it
    returns the decoded bytes, three for every four characters; the empty
    text decodes to the empty byte sequence.  The result depends on the
    text alone: [decode] is a function. *)
Theorem decode_throws_iff (s : string) :
  (decode s = Throw InvalidCharacterError ↔
     (length (Base64.cleaned s) mod 4 = 1)%nat
     ∨ ∃ c, c ∈ Base64.cleaned s ∧ Base64.in_alphabet c = false)
  ∧ (∀ e, decode s = Throw e → e = InvalidCharacterError)
  ∧ (∀ bytes, decode s = Ok bytes →
       length bytes = (length (Base64.cleaned s) * 3 / 4)%nat)
  ∧ decode "" = Ok [].
Proof.
  rewrite decode_unfold.
  destruct (length (Base64.cleaned s) mod 4 =? 1)%nat eqn:E1.
  - apply Nat.eqb_eq in E1. repeat split; try done.
    + intros _. by left.
    + by intros e [= <-].
  - apply Nat.eqb_neq in E1.
    destruct (forallb Base64.in_alphabet (Base64.cleaned s)) eqn:E2.
    + repeat split; try done.
      * intros [H | H]; [done|].
        apply forallb_false_witness in H. congruence.
      * intros bytes [= <-]. rewrite length_map.
        rewrite <- (sextets_length _ E2) in E1 |- *.
        by apply flush_length.
    + repeat split; try done.
      * intros _. right. by apply forallb_false_witness.
      * by intros e [= <-].
Qed.

(** C6, as the specification words it, fails on the code: [atob] is
    forgiving.  The empty text is decoded to the empty binary string, and
    [decode] returns an empty array without an error; a text whose padding
    is missing and a text with whitespace between its characters are
    decoded as well. *)
Lemma decode_is_forgiving :
  decode "" = Ok []
  ∧ ¬ (∃ e, decode "" = Throw e)
  ∧ decode "QQ" = Ok [x41]
  ∧ decode "Q Q==" = Ok [x41].
Proof.
  split; [reflexivity|]. split; [|split; reflexivity].
  intros [e H]. discriminate H.
Qed.

(** ** The 16-bit view *)
Section ViewFacts.

Lemma int16_of_bytes_range (lo hi : byte) :
  -32768 ≤ int16_of_bytes lo hi ≤ 32767.
Proof.
  unfold int16_of_bytes.
  pose proof (Byte.to_N_bounded lo). pose proof (Byte.to_N_bounded hi).
  destruct (_ <? 32768) eqn:E; [apply Z.ltb_lt in E | apply Z.ltb_ge in E]; lia.
Qed.

(** Induction over a list two elements at a time. *)
Lemma list_pair_ind {A} (P : list A → Prop) :
  P [] → (∀ a, P [a]) → (∀ a b l, P l → P (a :: b :: l)) → ∀ l, P l.
Proof.
  intros H0 H1 H2.
  assert (H : ∀ l, P l ∧ ∀ a, P (a :: l)).
  { induction l as [|b l [IH1 IH2]]; split; auto. }
  intros l. apply H.
Qed.

Lemma int16_elements_length (bytes : list byte) :
  length (int16_elements bytes) = (length bytes / 2)%nat.
Proof.
  induction bytes as [| a | a b l IH] using list_pair_ind; [done | done |].
  cbn [int16_elements length]. rewrite IH.
  change (S (S (length l))) with (1 * 2 + length l)%nat.
  rewrite Nat.div_add_l by lia. lia.
Qed.

Lemma int16_elements_range (bytes : list byte) (k : nat) (x : Z) :
  int16_elements bytes !! k = Some x → -32768 ≤ x ≤ 32767.
Proof.
  revert k. induction bytes as [| a | a b l IH] using list_pair_ind;
    intros k; [done | done |].
  cbn [int16_elements]. destruct k as [|k]; cbn.
  - intros [= <-]. apply int16_of_bytes_range.
  - apply IH.
Qed.

Lemma Int16Array_odd (data : Uint8Array) :
  (length data mod 2 ≠ 0)%nat → Int16Array data = Throw RangeError.
Proof.
  intros H. unfold Int16Array.
  destruct (length data mod 2 =? 0)%nat eqn:E; [|done].
  apply Nat.eqb_eq in E. done.
Qed.

Lemma Int16Array_even (data : Uint8Array) :
  (length data mod 2 = 0)%nat → Int16Array data = Ok (int16_elements data).
Proof. intros H. unfold Int16Array. by rewrite H. Qed.

End ViewFacts.

(** ** One sample *)
Section SampleFacts.

Lemma all_from_spec (k : nat) (f : Z → bool) (x : Z) :
  all_from k f x = true → ∀ y, x ≤ y < x + 2 ^ Z.of_nat k → f y = true.
Proof.
  revert x. induction k as [|k IH]; intros x H y Hy.
  - cbn in *. replace y with x by lia. exact H.
  - cbn [all_from] in H. apply andb_true_iff in H as [H1 H2].
    rewrite Nat2Z.inj_succ, Z.pow_succ_r in Hy by lia.
    destruct (Z_lt_ge_dec y (x + 2 ^ Z.of_nat k)).
    + apply (IH x H1). lia.
    + apply (IH _ H2). lia.
Qed.

Lemma every_sample_ok : all_from 16 sample_ok (-32768) = true.
Proof. vm_compute. reflexivity. Qed.

Lemma sample_ok_in_range (x : Z) :
  -32768 ≤ x ≤ 32767 → sample_ok x = true.
Proof.
  intros Hx. apply (all_from_spec 16 sample_ok (-32768) every_sample_ok).
  change (2 ^ Z.of_nat 16) with 65536. lia.
Qed.

End SampleFacts.

(** ** Decoding what the standard encoder produces *)
Section RoundTrip.
Import Base64 Base64Encoder.

Lemma alphabet_checked : all_from 6 (λ z, alphabet_ok (Z.to_N z)) 0 = true.
Proof. vm_compute. reflexivity. Qed.

Lemma alphabet_facts (v : N) :
  (v < 64)%N →
  sextet (alphabet v) = Some v
  ∧ is_ascii_whitespace (alphabet v) = false
  ∧ is_equals (alphabet v) = false.
Proof.
  intros Hv.
  assert (Hok : alphabet_ok v = true).
  { pose proof (all_from_spec 6 _ 0 alphabet_checked (Z.of_N v)) as H.
    cbv beta in H. rewrite N2Z.id in H. apply H.
    change (2 ^ Z.of_nat 6) with 64. lia. }
  unfold alphabet_ok in Hok.
  apply andb_true_iff in Hok as [Hok H3].
  apply andb_true_iff in Hok as [H1 H2].
  destruct (sextet (alphabet v)) as [u|]; [|done].
  apply N.eqb_eq in H1 as ->.
  by destruct (is_ascii_whitespace _), (is_equals _).
Qed.

Lemma groups_small (bytes : list byte) :
  Forall (λ v, (v < 64)%N) (groups bytes).
Proof.
  assert (H : ∀ n, (n ≤ length bytes)%nat → True) by done. clear H.
  remember (length bytes) as n eqn:Hn. revert bytes Hn.
  induction (lt_wf n) as [n _ IH]. intros bytes ->.
  destruct bytes as [|a [|b [|c rest]]]; cbn [groups].
  - constructor.
  - pose proof (Byte.to_N_bounded a). repeat constructor; lia_div.
  - pose proof (Byte.to_N_bounded a). pose proof (Byte.to_N_bounded b).
    repeat constructor; lia_div.
  - pose proof (Byte.to_N_bounded a). pose proof (Byte.to_N_bounded b).
    pose proof (Byte.to_N_bounded c).
    repeat (constructor; [lia_div|]). apply (IH (length rest)); [cbn; lia | done].
Qed.

Lemma list_triple_ind {A} (P : list A → Prop) :
  P [] → (∀ a, P [a]) → (∀ a b, P [a; b]) →
  (∀ a b c l, P l → P (a :: b :: c :: l)) → ∀ l, P l.
Proof.
  intros H0 H1 H2 H3 l.
  remember (length l) as n eqn:Hn. revert l Hn.
  induction (lt_wf n) as [n _ IH]. intros l ->.
  destruct l as [|a [|b [|c rest]]]; auto.
  apply H3, (IH (length rest)); [cbn; lia | done].
Qed.

Lemma padding_triple (a b c : byte) (rest : list byte) :
  padding (a :: b :: c :: rest) = padding rest.
Proof.
  unfold padding. cbn [length].
  replace (S (S (S (length rest)))) with (length rest + 1 * 3)%nat by lia.
  by rewrite Nat.Div0.mod_add.
Qed.

(** The shape of an encoded text: characters of the alphabet, then no,
    one or two padding characters, four characters for three bytes. *)
Lemma encoded_shape (bytes : list byte) :
  (length (groups bytes) mod 4 ≠ 1)%nat
  ∧ ((length (groups bytes) + length (padding bytes)) mod 4 = 0)%nat
  ∧ (padding bytes = []
     ∨ groups bytes ≠ []
       ∧ (padding bytes = [ascii_of_N 61]
          ∨ padding bytes = [ascii_of_N 61; ascii_of_N 61])).
Proof.
  induction bytes as [| a | a b | a b c rest (IH1 & IH2 & IH3)]
    using list_triple_ind.
  - cbn. auto.
  - cbn. split; [lia|]. split; [done|]. right. split; [done|]. by right.
  - cbn. split; [lia|]. split; [done|]. right. split; [done|]. by left.
  - rewrite padding_triple. cbn [groups length].
    replace (S (S (S (S (length (groups rest))))))
      with (length (groups rest) + 1 * 4)%nat by lia.
    rewrite Nat.Div0.mod_add. split; [done|]. split.
    + replace (length (groups rest) + 1 * 4 + length (padding rest))%nat
        with (length (groups rest) + length (padding rest) + 1 * 4)%nat by lia.
      by rewrite Nat.Div0.mod_add.
    + destruct IH3 as [-> | [_ H]]; [by left | right]. by split.
Qed.

Lemma strip_padding_encoded (body pad : list ascii) :
  Forall (λ c, is_equals c = false) body →
  (length (body ++ pad) mod 4 = 0)%nat →
  pad = [] ∨ body ≠ [] ∧ (pad = [ascii_of_N 61]
                          ∨ pad = [ascii_of_N 61; ascii_of_N 61]) →
  strip_padding (body ++ pad) = body.
Proof.
  intros Hbody Hlen Hpad. unfold strip_padding. rewrite Hlen. cbn [Nat.eqb].
  rewrite rev_app_distr.
  assert (Hrev : ∀ c r, rev body = c :: r → is_equals c = false).
  { intros c r Hr. rewrite Forall_forall in Hbody. apply Hbody.
    apply list_elem_of_In, in_rev. rewrite Hr. left. done. }
  destruct Hpad as [-> | [Hne [-> | ->]]]; cbn [rev app].
  - rewrite app_nil_r.
    destruct (rev body) as [|c1 [|c2 r]] eqn:Hr.
    + done.
    + rewrite (Hrev c1 [] eq_refl).
      apply (f_equal (@rev ascii)) in Hr. rewrite rev_involutive in Hr.
      by rewrite Hr.
    + by rewrite (Hrev c1 (c2 :: r) eq_refl).
  - destruct (rev body) as [|c2 r] eqn:Hr.
    + exfalso. apply Hne. apply (f_equal (@rev ascii)) in Hr.
      by rewrite rev_involutive in Hr.
    + change (is_equals (ascii_of_N 61)) with true. cbn iota.
      rewrite (Hrev c2 r eq_refl).
      change (rev r ++ [c2]) with (rev (c2 :: r)).
      by rewrite <- Hr, rev_involutive.
  - destruct (rev body) as [|c2 r] eqn:Hr.
    + exfalso. apply Hne. apply (f_equal (@rev ascii)) in Hr.
      by rewrite rev_involutive in Hr.
    + change (is_equals (ascii_of_N 61)) with true. cbn iota.
      by rewrite <- Hr, rev_involutive.
Qed.

Lemma alphabet_clean (vs : list N) :
  Forall (λ v, (v < 64)%N) vs →
  filter (λ c, is_ascii_whitespace c = false) (map alphabet vs) = map alphabet vs
  ∧ Forall (λ c, is_equals c = false) (map alphabet vs).
Proof.
  induction 1 as [|v vs Hv _ [IH1 IH2]]; [done|]. cbn [map].
  destruct (alphabet_facts v Hv) as (_ & Hws & Heq).
  rewrite filter_cons_True by done. rewrite IH1. split; [done|].
  by constructor.
Qed.

Lemma cleaned_btoa (bytes : list byte) :
  cleaned (btoa bytes) = map alphabet (groups bytes).
Proof.
  unfold cleaned, btoa. rewrite list_ascii_of_string_of_list_ascii.
  destruct (alphabet_clean _ (groups_small bytes)) as [Hf1 Heq].
  destruct (encoded_shape bytes) as (_ & Hlen & Hpad).
  rewrite filter_app.
  assert (Hf2 : filter (λ c, is_ascii_whitespace c = false) (padding bytes)
                = padding bytes).
  { destruct Hpad as [-> | [_ [-> | ->]]]; done. }
  rewrite Hf1, Hf2. apply strip_padding_encoded.
  - done.
  - by rewrite length_app, length_map.
  - destruct Hpad as [H | [Hne H]]; [by left | right]. split; [|done].
    by destruct (groups bytes).
Qed.

Lemma sextets_alphabet (vs : list N) :
  Forall (λ v, (v < 64)%N) vs →
  sextets (map alphabet vs) = vs
  ∧ forallb in_alphabet (map alphabet vs) = true.
Proof.
  unfold sextets, in_alphabet.
  induction 1 as [|v vs Hv _ [IH1 IH2]]; [done|]. cbn.
  destruct (alphabet_facts v Hv) as (-> & _). cbn. by rewrite IH1, IH2.
Qed.

Lemma push_four (out : list ascii) (v1 v2 v3 v4 : N) :
  foldl push {| acc_bits := 0; acc_count := 0; acc_out := out |} [v1; v2; v3; v4]
  = {| acc_bits := 0; acc_count := 0;
       acc_out := out ++
         let bits := ((((0 * 64 + v1) * 64 + v2) * 64 + v3) * 64 + v4)%N in
         [ascii_of_N (bits / 65536); ascii_of_N (bits / 256 mod 256);
          ascii_of_N (bits mod 256)] |}.
Proof. reflexivity. Qed.

Lemma ascii_of_byte_value (x : byte) (n : N) :
  n = Byte.to_N x → ascii_of_N n = ascii_of_byte x.
Proof. intros ->. symmetry. apply ascii_of_byte_via_N. Qed.

Local Ltac same_bytes :=
  f_equal;
  repeat (apply (f_equal2 cons); [apply ascii_of_byte_value; lia_div|]);
  done.

Lemma flush_groups (bytes : list byte) :
  ∀ out,
    flush (foldl push {| acc_bits := 0; acc_count := 0; acc_out := out |}
                 (groups bytes))
    = out ++ map ascii_of_byte bytes.
Proof.
  induction bytes as [| a | a b | a b c rest IH] using list_triple_ind;
    intros out.
  - cbn. by rewrite app_nil_r.
  - pose proof (Byte.to_N_bounded a).
    cbn [groups foldl]. unfold push at 1 2, flush.
    cbn [acc_bits acc_count acc_out Nat.add Nat.eqb map]. same_bytes.
  - pose proof (Byte.to_N_bounded a). pose proof (Byte.to_N_bounded b).
    cbn [groups foldl]. unfold push at 1 2 3, flush.
    cbn [acc_bits acc_count acc_out Nat.add Nat.eqb map]. same_bytes.
  - pose proof (Byte.to_N_bounded a). pose proof (Byte.to_N_bounded b).
    pose proof (Byte.to_N_bounded c).
    cbn [groups].
    change (?v1 :: ?v2 :: ?v3 :: ?v4 :: groups rest)
      with ([v1; v2; v3; v4] ++ groups rest).
    rewrite foldl_app, push_four, IH. cbn [map].
    rewrite <- app_assoc. f_equal. cbn [app].
    repeat (apply (f_equal2 cons); [apply ascii_of_byte_value; lia_div|]). done.
Qed.

Lemma bytes_of_ascii_of_bytes (bytes : list byte) :
  map byte_of_ascii (map ascii_of_byte bytes) = bytes.
Proof.
  induction bytes as [|x bytes IH]; [done|].
  cbn. by rewrite byte_of_ascii_of_byte, IH.
Qed.

(** [decode] inverts the standard encoder on every byte sequence. *)
Lemma decode_btoa (bytes : list byte) : decode (btoa bytes) = Ok bytes.
Proof.
  rewrite decode_unfold, cleaned_btoa.
  destruct (encoded_shape bytes) as (Hlen & _).
  destruct (sextets_alphabet _ (groups_small bytes)) as [-> ->].
  rewrite length_map.
  destruct (length (groups bytes) mod 4 =? 1)%nat eqn:E;
    [by apply Nat.eqb_eq in E|].
  unfold initial. rewrite flush_groups. cbn [app].
  by rewrite bytes_of_ascii_of_bytes.
Qed.

End RoundTrip.

(** ** The loops of [decodeAudioData] *)
Section LoopFacts.
Context {A : Type} (g : nat → A) (q : Quotient).

Lemma index_lt_antitone (i j : nat) :
  (i ≤ j)%nat → index_lt j q = true → index_lt i q = true.
Proof.
  unfold index_lt. intros Hij H. apply Nat.ltb_lt in H. apply Nat.ltb_lt.
  assert (i * denom q ≤ j * denom q)%nat by (apply Nat.mul_le_mono_r; lia).
  lia.
Qed.

Lemma for_lt_length (fuel i : nat) (s : list A) :
  length (for_lt fuel i q (λ i s, <[i := g i]> s) s) = length s.
Proof.
  revert i s. induction fuel as [|fuel IH]; intros i s. 1: reflexivity.
  cbn [for_lt]. destruct (index_lt i q); [|done]. by rewrite IH, length_insert.
Qed.

Lemma for_lt_lookup_before (fuel i : nat) (s : list A) (j : nat) :
  (j < i)%nat → for_lt fuel i q (λ i s, <[i := g i]> s) s !! j = s !! j.
Proof.
  revert i s. induction fuel as [|fuel IH]; intros i s Hj; [done|].
  cbn [for_lt]. destruct (index_lt i q); [|done].
  rewrite IH by lia. apply list_lookup_insert_ne. lia.
Qed.

Lemma for_lt_lookup (fuel i : nat) (s : list A) (j : nat) :
  (i ≤ j < i + fuel)%nat → (j < length s)%nat → index_lt j q = true →
  for_lt fuel i q (λ i s, <[i := g i]> s) s !! j = Some (g j).
Proof.
  revert i s. induction fuel as [|fuel IH]; intros i s Hj Hlen Hlt; [lia|].
  cbn [for_lt]. rewrite (index_lt_antitone i j) by (lia || done).
  destruct (decide (i = j)) as [-> | Hne].
  - rewrite for_lt_lookup_before by lia. by apply list_lookup_insert_eq.
  - apply IH; [lia | by rewrite length_insert | done].
Qed.

(** The loop ends because its condition fails, not because the bound on
    its iterations is reached: more fuel changes nothing. *)
Lemma for_lt_fuel (fuel extra i : nat) (s : list A) :
  index_lt (i + fuel) q = false →
  for_lt (fuel + extra) i q (λ i s, <[i := g i]> s) s = for_lt fuel i q (λ i s, <[i := g i]> s) s.
Proof.
  revert i s. induction fuel as [|fuel IH]; intros i s Hend.
  - rewrite Nat.add_0_r in Hend. destruct extra; [done|].
    cbn [Nat.add for_lt]. by rewrite Hend.
  - cbn [Nat.add for_lt]. destruct (index_lt i q); [|done]. apply IH.
    by replace (S i + fuel)%nat with (i + S fuel)%nat by lia.
Qed.

End LoopFacts.

Section ConverterFacts.

Lemma index_lt_numer (q : Quotient) :
  (1 ≤ denom q)%nat → index_lt (numer q) q = false.
Proof. intros H. unfold index_lt. apply Nat.ltb_ge. nia. Qed.

Lemma index_lt_frames (q : Quotient) (i : nat) :
  (i < to_unsigned_long q)%nat → index_lt i q = true.
Proof.
  unfold to_unsigned_long, index_lt. intros H. apply Nat.ltb_lt.
  destruct (denom q) as [|d] eqn:Hd; [cbn in H; lia|].
  pose proof (Nat.Div0.mul_div_le (numer q) (S d)).
  assert (S i * S d ≤ S d * (numer q / S d))%nat by nia.
  lia.
Qed.

(** More fuel than [S (length dataInt16)] would not change the result of
    the inner loop. *)
Lemma fill_channel_fuel (dataInt16 : list Z) (numChannels channel extra : nat)
    (data : list float) :
  (1 ≤ numChannels)%nat →
  let frameCount := {| numer := length dataInt16; denom := numChannels |} in
  for_lt (S (length dataInt16) + extra) 0 frameCount
    (λ i data,
       <[i := fround (div_32768 (dataInt16 !! (i * numChannels + channel)%nat))]> data)
    data
  = fill_channel dataInt16 numChannels frameCount channel data.
Proof.
  intros Hch frameCount. unfold fill_channel.
  apply (for_lt_fuel
           (λ i, fround (div_32768 (dataInt16 !! (i * numChannels + channel)%nat)))).
  apply Nat.ltb_ge. cbn. nia.
Qed.

Lemma fill_channel_length dataInt16 numChannels frameCount channel data :
  length (fill_channel dataInt16 numChannels frameCount channel data) = length data.
Proof.
  unfold fill_channel.
  apply (for_lt_length
           (λ i, fround (div_32768 (dataInt16 !! (i * numChannels + channel)%nat)))).
Qed.

Lemma fill_channel_lookup dataInt16 numChannels channel data (i : nat) :
  let frameCount := {| numer := length dataInt16; denom := numChannels |} in
  (i < length data)%nat → (i < to_unsigned_long frameCount)%nat →
  fill_channel dataInt16 numChannels frameCount channel data !! i
  = Some (fround (div_32768 (dataInt16 !! (i * numChannels + channel)%nat))).
Proof.
  intros frameCount Hlen Hi. unfold fill_channel.
  apply (for_lt_lookup
           (λ i, fround (div_32768 (dataInt16 !! (i * numChannels + channel)%nat))));
    [| done | by apply index_lt_frames].
  split; [lia|]. unfold to_unsigned_long in Hi. cbn in Hi.
  destruct numChannels as [|d]; [cbn in Hi; lia|].
  pose proof (Nat.Div0.div_le_upper_bound (length dataInt16) (S d) (length dataInt16)).
  assert (length dataInt16 / S d ≤ length dataInt16)%nat by (apply H; nia).
  lia.
Qed.

Lemma fill_channels_spec dataInt16 numChannels frameCount (todo : list nat) :
  ∀ buffer,
    NoDup todo →
    (∀ c, c ∈ todo → (c < length (channelData buffer))%nat) →
    ∃ b, fill_channels dataInt16 numChannels frameCount todo buffer = Ok b
         ∧ numberOfChannels b = numberOfChannels buffer
         ∧ frames b = frames buffer
         ∧ sampleRate b = sampleRate buffer
         ∧ length (channelData b) = length (channelData buffer)
         ∧ ∀ c data, channelData buffer !! c = Some data →
             channelData b !! c
             = Some (if decide (c ∈ todo)
                     then fill_channel dataInt16 numChannels frameCount c data
                     else data).
Proof.
  induction todo as [|channel rest IH]; intros buffer Hnd Hin.
  - exists buffer. repeat split; done.
  - apply NoDup_cons in Hnd as [Hnotin Hnd].
    destruct (lookup_lt_is_Some_2 (channelData buffer) channel) as [data0 Hd0].
    { apply Hin. left. }
    cbn [fill_channels]. unfold getChannelData. rewrite Hd0.
    unfold mbind, Result_bind.
    set (buffer1 := setChannelData buffer channel _).
    destruct (IH buffer1 Hnd) as (b & Hb & Hn & Hf & Hr & Hl & Hc).
    { intros c Hc. cbn. rewrite length_insert. apply Hin. by right. }
    exists b. split; [exact Hb|]. cbn in Hn, Hf, Hr, Hl.
    rewrite length_insert in Hl. repeat split; try done.
    intros c data Hdata. destruct (decide (c = channel)) as [-> | Hne].
    + assert (data = data0) as -> by congruence.
      rewrite (Hc channel (fill_channel dataInt16 numChannels frameCount channel data0)).
      * rewrite decide_False by done. rewrite decide_True by left. done.
      * cbn. apply list_lookup_insert_eq. by eapply lookup_lt_Some.
    + rewrite (Hc c data).
      * f_equal. repeat case_decide; try done.
        -- exfalso. apply H0. by right.
        -- exfalso. apply elem_of_cons in H0 as [? | ?]; done.
      * cbn. rewrite list_lookup_insert_ne by done. done.
Qed.

(** What a successful conversion returns. *)
Lemma decodeAudioData_Ok data ctx rate numChannels b :
  decodeAudioData data ctx rate numChannels = Ok b →
  let dataInt16 := int16_elements data in
  let frameCount := {| numer := length dataInt16; denom := numChannels |} in
  (length data mod 2 = 0)%nat
  ∧ (1 ≤ numChannels)%nat
  ∧ numberOfChannels b = numChannels
  ∧ frames b = (length data / 2 / numChannels)%nat
  ∧ (1 ≤ frames b)%nat
  ∧ sampleRate b = rate
  ∧ length (channelData b) = numChannels
  ∧ ∀ c, (c < numChannels)%nat →
      channelData b !! c
      = Some (fill_channel dataInt16 numChannels frameCount c
                (replicate (frames b) 0%float)).
Proof.
  intros H dataInt16 frameCount. unfold decodeAudioData in H.
  destruct (decide (length data mod 2 = 0)%nat) as [Hev | Hodd];
    [| by rewrite Int16Array_odd in H].
  rewrite Int16Array_even in H by done. unfold mbind, Result_bind in H.
  fold dataInt16 in H. fold frameCount in H.
  unfold createBuffer in H.
  destruct (_ || _) eqn:Hguard; [done|].
  apply orb_false_iff in Hguard as [Hguard _].
  apply orb_false_iff in Hguard as [Hguard _].
  apply orb_false_iff in Hguard as [Hguard Hlen0].
  apply orb_false_iff in Hguard as [Hguard _].
  apply Nat.eqb_neq in Hguard. apply Nat.eqb_neq in Hlen0.
  set (buffer := {| numberOfChannels := numChannels |}) in H.
  destruct (fill_channels_spec dataInt16 numChannels frameCount
              (seq 0 numChannels) buffer) as (b' & Hb & Hn & Hf & Hr & Hl & Hc).
  { apply NoDup_seq. }
  { intros c Hc. apply elem_of_seq in Hc. cbn. rewrite length_replicate. lia. }
  rewrite Hb in H. injection H as <-.
  cbn in Hn, Hf, Hr, Hl. rewrite length_replicate in Hl.
  assert (Hframes : frames b' = (length data / 2 / numChannels)%nat).
  { rewrite Hf. unfold to_unsigned_long, frameCount, dataInt16. cbn.
    by rewrite int16_elements_length. }
  repeat split; try done; try lia.
  intros c Hlt. rewrite (Hc c (replicate (frames b') 0%float)).
  - rewrite decide_True; [done|]. apply elem_of_seq. lia.
  - cbn. rewrite Hf. by apply lookup_replicate_2.
Qed.

(** When a conversion succeeds. *)
Lemma decodeAudioData_succeeds data ctx rate numChannels :
  (length data mod 2 = 0)%nat →
  (1 ≤ numChannels ≤ maxChannelCount (platform ctx))%nat →
  (2 * numChannels ≤ length data)%nat →
  minBufferRate (platform ctx) ≤ rate ≤ maxBufferRate (platform ctx) →
  ∃ b, decodeAudioData data ctx rate numChannels = Ok b.
Proof.
  intros Hev Hch Hlen Hrate. unfold decodeAudioData.
  rewrite Int16Array_even by done. unfold mbind, Result_bind.
  unfold createBuffer.
  assert (Hfr : (1 ≤ to_unsigned_long
                   {| numer := length (int16_elements data); denom := numChannels |})%nat).
  { unfold to_unsigned_long. cbn. rewrite int16_elements_length.
    rewrite Nat.Div0.div_div. apply Nat.div_le_lower_bound; lia. }
  destruct (_ || _) eqn:Hguard.
  - exfalso. repeat (apply orb_true_iff in Hguard as [Hguard | Hguard]).
    + apply Nat.eqb_eq in Hguard. lia.
    + apply Nat.ltb_lt in Hguard. lia.
    + apply Nat.eqb_eq in Hguard. lia.
    + apply Z.ltb_lt in Hguard. lia.
    + apply Z.ltb_lt in Hguard. lia.
  - set (buffer := {| numberOfChannels := numChannels |}).
    destruct (fill_channels_spec (int16_elements data) numChannels
                {| numer := length (int16_elements data); denom := numChannels |}
                (seq 0 numChannels) buffer) as (b' & Hb & _).
    { apply NoDup_seq. }
    { intros c Hc. apply elem_of_seq in Hc. cbn. rewrite length_replicate. lia. }
    by exists b'.
Qed.

End ConverterFacts.

(** ** What the converter guarantees *)

Lemma int16_elements_lookup (data : Uint8Array) (k : nat) (x : Z) :
  int16_elements data !! k = Some x ↔
  ∃ lo hi, data !! (2 * k)%nat = Some lo ∧ data !! (2 * k + 1)%nat = Some hi
           ∧ x = int16_of_bytes lo hi.
Proof.
  revert k. induction data as [| a | a b l IH] using list_pair_ind; intros k.
  - split; [done | by intros (lo & hi & H & _)].
  - split; [done|]. intros (lo & hi & H1 & H2 & _).
    replace (2 * k + 1)%nat with (S (2 * k)) in H2 by lia. done.
  - destruct k as [|k].
    + cbn. split.
      * intros [= <-]. by exists a, b.
      * by intros (lo & hi & [= <-] & [= <-] & ->).
    + cbn [int16_elements]. replace (2 * S k)%nat with (S (S (2 * k))) by lia.
      cbn [lookup list_lookup Nat.add]. apply IH.
Qed.

(** C1 (as amended).  A byte sequence whose length is not a multiple of the
    sample width, two bytes, makes the conversion fail for every channel
    count: the 16-bit view cannot be built and the constructor throws
    [RangeError].  With one channel, the only count the player passes,
    these are all the lengths that are not a multiple of [2 * channels].
    There is no check against the channel count: an even length that holds
    at least one frame is converted, on a platform that supports the
    channel count and the rate, to a buffer of
    [byteLength / (2 * channels)] frames, rounded down. *)
Theorem decodeAudioData_alignment (data : Uint8Array) (ctx : AudioContext)
    (rate : Z) (numChannels : nat) :
  ((length data mod 2 ≠ 0)%nat →
   decodeAudioData data ctx rate numChannels = Throw RangeError)
  ∧ ((length data mod 2 = 0)%nat →
     (1 ≤ numChannels ≤ maxChannelCount (platform ctx))%nat →
     (2 * numChannels ≤ length data)%nat →
     minBufferRate (platform ctx) ≤ rate ≤ maxBufferRate (platform ctx) →
     ∃ b, decodeAudioData data ctx rate numChannels = Ok b
          ∧ frames b = (length data / (2 * numChannels))%nat).
Proof.
  split.
  - intros H. unfold decodeAudioData. by rewrite Int16Array_odd.
  - intros Hev Hch Hlen Hrate.
    destruct (decodeAudioData_succeeds data ctx rate numChannels) as [b Hb];
      try done.
    exists b. split; [done|].
    destruct (decodeAudioData_Ok _ _ _ _ _ Hb) as (_ & _ & _ & Hf & _).
    rewrite Hf. apply Nat.Div0.div_div.
Qed.

Lemma decodeAudioData_alignment_witness :
  decodeAudioData [x00; x80; xff] reference_context 24000 1 = Throw RangeError
  ∧ ∃ b, decodeAudioData three_samples reference_context 24000 2 = Ok b
         ∧ frames b = 1%nat.
Proof.
  split.
  - apply (decodeAudioData_alignment [x00; x80; xff] reference_context 24000 1).
    cbn; lia.
  - apply (decodeAudioData_alignment three_samples reference_context 24000 2);
      cbn; lia.
Defined.

(** C1, as the specification words it, fails on the code: six bytes are
    three samples, not a whole number of stereo frames, and the conversion
    returns a buffer of one frame with the third sample dropped. *)
Lemma partial_frame_is_dropped :
  (length three_samples mod (2 * 2) ≠ 0)%nat
  ∧ decodeAudioData three_samples reference_context 24000 2
    = Ok {| numberOfChannels := 2; frames := 1; sampleRate := 24000;
            channelData := [[(-1)%float]; [0.999969482421875%float]] |}.
Proof. split; [cbn; lia | reflexivity]. Qed.

(** C7.  When the byte length is a multiple of [2 * channels], a buffer the
    conversion returns has [byteLength / (2 * channels)] frames, with no
    remainder, and every channel holds that many samples.  A buffer is
    returned whenever the bytes are not empty and the platform supports the
    channel count and the rate. *)
Theorem frame_count_exact (data : Uint8Array) (ctx : AudioContext)
    (rate : Z) (numChannels : nat) :
  (length data mod (2 * numChannels) = 0)%nat →
  ((1 ≤ length data)%nat →
   (1 ≤ numChannels ≤ maxChannelCount (platform ctx))%nat →
   minBufferRate (platform ctx) ≤ rate ≤ maxBufferRate (platform ctx) →
   ∃ b, decodeAudioData data ctx rate numChannels = Ok b)
  ∧ ∀ b, decodeAudioData data ctx rate numChannels = Ok b →
      frames b = (length data / (2 * numChannels))%nat
      ∧ (frames b * (2 * numChannels))%nat = length data
      ∧ numberOfChannels b = numChannels
      ∧ length (channelData b) = numChannels
      ∧ ∀ samples, samples ∈ channelData b → length samples = frames b.
Proof.
  intros Hdiv. split.
  - intros Hne Hch Hrate.
    assert (numChannels ≠ 0)%nat by lia.
    apply Nat.Div0.mod_divides in Hdiv as [k Hk].
    apply decodeAudioData_succeeds; try done.
    + rewrite Hk. replace (2 * numChannels * k)%nat with (numChannels * k * 2)%nat by lia.
      apply Nat.Div0.mod_mul.
    + destruct k; [lia | nia].
  - intros b Hb.
    destruct (decodeAudioData_Ok _ _ _ _ _ Hb)
      as (Hev & Hch & Hn & Hf & Hpos & Hr & Hl & Hc).
    assert (Hfr : frames b = (length data / (2 * numChannels))%nat).
    { rewrite Hf. apply Nat.Div0.div_div. }
    repeat split; try done.
    + rewrite Hfr, Nat.mul_comm. symmetry. by apply Nat.Div0.div_exact.
    + intros samples Hin. apply list_elem_of_lookup in Hin as [c Hin].
      assert (c < numChannels)%nat as Hlt.
      { rewrite <- Hl. by eapply lookup_lt_Some. }
      rewrite (Hc c Hlt) in Hin. injection Hin as <-.
      by rewrite fill_channel_length, length_replicate.
Qed.

Lemma frame_count_exact_witness :
  (∃ b, decodeAudioData two_samples reference_context 24000 1 = Ok b)
  ∧ ∀ b, decodeAudioData two_samples reference_context 24000 1 = Ok b →
      frames b = 2%nat ∧ length (channelData b) = 1%nat.
Proof.
  destruct (frame_count_exact two_samples reference_context 24000 1)
    as [Hex Hall]; [reflexivity|].
  split.
  - apply Hex; cbn; lia.
  - intros b Hb. destruct (Hall b Hb) as (Hf & _ & _ & Hl & _). by split.
Defined.

(** C2.  Every 16-bit element, whatever its two bytes, is divided by 32768
    and nothing else is done to it: neither the division nor the store
    into the 32-bit float array rounds (multiplying the stored value back
    by 32768 gives the element), and the stored value lies in [-1, 1].
    The element -32768 (bytes 00 80) is stored as exactly -1, the element
    32767 (bytes FF 7F) as a value strictly below 1.  The conversion
    stores every sample of every whole frame: on bytes of even length
    that hold at least one frame, with a channel count and a rate the
    platform supports, it returns a buffer of [length / 2 / channels]
    frames in which sample [i] of channel [c] is the normalized element
    [i * channels + c] of the little-endian view.  Conversely every
    sample of a buffer the conversion returns is such a value. *)
Theorem samples_normalized :
  (∀ lo hi : byte,
     let x := int16_of_bytes lo hi in
     let v := fround (div_32768 (Some x)) in
     -32768 ≤ x ≤ 32767
     ∧ (v =? number_of_Z x / 32768)%float = true
     ∧ (v * 32768 =? number_of_Z x)%float = true
     ∧ (-1 <=? v)%float = true ∧ (v <=? 1)%float = true)
  ∧ int16_of_bytes x00 x80 = -32768
  ∧ fround (div_32768 (Some (-32768))) = (-1)%float
  ∧ int16_of_bytes xff x7f = 32767
  ∧ (fround (div_32768 (Some 32767%Z)) <? 1)%float = true
  ∧ (∀ data ctx rate numChannels,
       (length data mod 2 = 0)%nat →
       (1 ≤ numChannels ≤ maxChannelCount (platform ctx))%nat →
       (2 * numChannels ≤ length data)%nat →
       minBufferRate (platform ctx) ≤ rate ≤ maxBufferRate (platform ctx) →
       ∃ b, decodeAudioData data ctx rate numChannels = Ok b
         ∧ frames b = (length data / 2 / numChannels)%nat
         ∧ length (channelData b) = numChannels
         ∧ ∀ c i, (c < numChannels)%nat → (i < frames b)%nat →
             ∃ samples lo hi,
               channelData b !! c = Some samples
               ∧ length samples = frames b
               ∧ data !! (2 * (i * numChannels + c))%nat = Some lo
               ∧ data !! (2 * (i * numChannels + c) + 1)%nat = Some hi
               ∧ samples !! i
                 = Some (fround (div_32768 (Some (int16_of_bytes lo hi)))))
  ∧ ∀ data ctx rate numChannels b,
      decodeAudioData data ctx rate numChannels = Ok b →
      ∀ c samples i v,
        channelData b !! c = Some samples → samples !! i = Some v →
        ∃ lo hi,
          data !! (2 * (i * numChannels + c))%nat = Some lo
          ∧ data !! (2 * (i * numChannels + c) + 1)%nat = Some hi
          ∧ v = fround (div_32768 (Some (int16_of_bytes lo hi)))
          ∧ (-1 <=? v)%float = true ∧ (v <=? 1)%float = true.
Proof.
  assert (Hone : ∀ lo hi : byte,
     let x := int16_of_bytes lo hi in
     let v := fround (div_32768 (Some x)) in
     -32768 ≤ x ≤ 32767
     ∧ (v =? number_of_Z x / 32768)%float = true
     ∧ (v * 32768 =? number_of_Z x)%float = true
     ∧ (-1 <=? v)%float = true ∧ (v <=? 1)%float = true).
  { intros lo hi x v. pose proof (int16_of_bytes_range lo hi) as Hx.
    pose proof (sample_ok_in_range x Hx) as Hok. unfold sample_ok in Hok.
    cbv zeta in Hok. fold v in Hok.
    repeat (apply andb_true_iff in Hok as [Hok ?]).
    repeat split; solve [done | apply Hx]. }
  assert (Hstored : ∀ data numChannels (b : AudioBuffer) c i,
    frames b = (length data / 2 / numChannels)%nat →
    (c < numChannels)%nat → (i < frames b)%nat →
    let samples :=
      fill_channel (int16_elements data) numChannels
        {| numer := length (int16_elements data); denom := numChannels |} c
        (replicate (frames b) 0%float) in
    length samples = frames b
    ∧ ∃ lo hi,
        data !! (2 * (i * numChannels + c))%nat = Some lo
        ∧ data !! (2 * (i * numChannels + c) + 1)%nat = Some hi
        ∧ samples !! i
          = Some (fround (div_32768 (Some (int16_of_bytes lo hi))))).
  { intros data numChannels b c i Hf Hc Hi samples. subst samples.
    rewrite fill_channel_length, length_replicate. split; [done|].
    assert (Hfc : frames b = to_unsigned_long
              {| numer := length (int16_elements data); denom := numChannels |}).
    { rewrite Hf. unfold to_unsigned_long. cbn.
      by rewrite int16_elements_length. }
    rewrite fill_channel_lookup;
      [| by rewrite length_replicate | by rewrite <- Hfc].
    assert (i * numChannels + c < length (int16_elements data))%nat as Hidx.
    { rewrite Hfc in Hi. unfold to_unsigned_long in Hi. cbn in Hi.
      pose proof (Nat.Div0.mul_div_le (length (int16_elements data)) numChannels).
      nia. }
    destruct (lookup_lt_is_Some_2 _ _ Hidx) as [x Hx].
    rewrite Hx. apply int16_elements_lookup in Hx as (lo & hi & Hlo & Hhi & ->).
    by exists lo, hi. }
  split; [exact Hone|].
  do 4 (split; [reflexivity|]). split.
  - intros data ctx rate numChannels Hev Hch Hlen Hrate.
    destruct (decodeAudioData_succeeds data ctx rate numChannels
                Hev Hch Hlen Hrate) as [b Hb].
    exists b. split; [done|].
    destruct (decodeAudioData_Ok _ _ _ _ _ Hb)
      as (_ & _ & _ & Hf & _ & _ & Hl & Hfill).
    split; [done|]. split; [done|].
    intros c i Hc Hi.
    destruct (Hstored data numChannels b c i Hf Hc Hi)
      as (Hlen' & lo & hi & Hlo & Hhi & Hv).
    eexists _, lo, hi. split; [by apply Hfill|]. by split_and!.
  - intros data ctx rate numChannels b Hb c samples i v Hc Hi.
    destruct (decodeAudioData_Ok _ _ _ _ _ Hb)
      as (Hev & Hch & Hn & Hf & Hpos & Hr & Hl & Hfill).
    assert (c < numChannels)%nat as Hlt.
    { rewrite <- Hl. by eapply lookup_lt_Some. }
    rewrite (Hfill c Hlt) in Hc. injection Hc as <-.
    assert (i < frames b)%nat as Hifr.
    { apply lookup_lt_Some in Hi.
      by rewrite fill_channel_length, length_replicate in Hi. }
    destruct (Hstored data numChannels b c i Hf Hlt Hifr)
      as (_ & lo & hi & Hlo & Hhi & Hv).
    cbv zeta in Hv. rewrite Hv in Hi. injection Hi as <-.
    exists lo, hi. destruct (Hone lo hi) as (_ & _ & _ & Hge & Hle).
    by repeat split.
Qed.

(** The payload 00 80 FF 7F, mono: both samples are stored, -1 and
    32767/32768. *)
Lemma samples_normalized_witness :
  ∃ b samples,
    decodeAudioData two_samples reference_context 24000 1 = Ok b
    ∧ frames b = 2%nat
    ∧ channelData b !! 0%nat = Some samples
    ∧ samples !! 0%nat = Some (-1)%float
    ∧ samples !! 1%nat = Some 0.999969482421875%float.
Proof.
  destruct samples_normalized as (_ & _ & _ & _ & _ & Hstore & _).
  destruct (Hstore two_samples reference_context 24000 1%nat)
    as (b & Hb & Hf & _ & Hs); [reflexivity | cbn; lia | cbn; lia | cbn; lia |].
  change (frames b = 2%nat) in Hf.
  destruct (Hs 0%nat 0%nat) as (s0 & lo0 & hi0 & Hc0 & _ & Hlo0 & Hhi0 & Hv0);
    [lia | lia |].
  destruct (Hs 0%nat 1%nat) as (s1 & lo1 & hi1 & Hc1 & _ & Hlo1 & Hhi1 & Hv1);
    [lia | lia |].
  injection Hlo0 as <-. injection Hhi0 as <-.
  injection Hlo1 as <-. injection Hhi1 as <-.
  assert (s1 = s0) as -> by congruence.
  exists b, s0. split_and!; done.
Defined.

(** The store rounds to binary32, to the nearest value: one third. *)
Example fround_third :
  fround (1 / 3)%float = 0.3333333432674407958984375%float.
Proof. reflexivity. Qed.

(** The scenario of the specification: the payload 00 80 FF 7F, mono, gives
    two frames, -1 and 32767/32768. *)
Example two_samples_decoded :
  decodeAudioData two_samples reference_context 24000 1
  = Ok {| numberOfChannels := 1; frames := 2; sampleRate := 24000;
          channelData := [[(-1)%float; 0.999969482421875%float]] |}.
Proof. reflexivity. Qed.

(** ** The playback controller *)
Section PlayerFacts.

Lemma load_cached (w : World) :
  is_Some (audioBuffer (player w)) → load w = (w, []).
Proof. intros [b Hb]. unfold load. by rewrite Hb. Qed.

Lemma stop_idle (w : World) :
  sourceNode (player w) = None → stop w = (w, []).
Proof. intros H. unfold stop. by rewrite H. Qed.

(** The state after [stop()] on a session. *)
Lemma stop_session (w : World) (n : nat) :
  sourceNode (player w) = Some n →
  stop w = ({| player := set_sourceNode None (player w);
               nodes := alter (node_stop ∘ set_onended None) n (nodes w);
               awaiting := awaiting w |},
            [SinkStop n]).
Proof.
  intros H. unfold stop. rewrite H. unfold update_node, with_nodes, with_player.
  cbn. by rewrite list_alter_alter_eq.
Qed.

(** The state after [play()] on a loaded player: the session, if any, is
    stopped, and a fresh node is the new session. *)
Lemma play_loaded (w : World) (b : AudioBuffer) :
  audioBuffer (player w) = Some b →
  let w1 := (match sourceNode (player w) with
             | Some _ => stop w
             | None => (w, [])
             end) in
  play w = ({| player := set_sourceNode (Some (length (nodes w))) (player w1.1);
               nodes := nodes w1.1 ++
                 [{| buffer := Some b; connected := true;
                     onended := Some EndedClosure; phase := Started |}];
               awaiting := awaiting w |},
            w1.2 ++ [SinkStart (length (nodes w)) 0]).
Proof.
  intros Hb w1. subst w1. unfold play. rewrite Hb.
  destruct (sourceNode (player w)) as [n|] eqn:Hs.
  - rewrite (stop_session w n Hs).
    unfold update_node, with_nodes, with_player. cbn.
    rewrite Hb, !list_alter_alter_eq, length_alter.
    f_equal. f_equal.
    rewrite alter_app_r_alt by (rewrite length_alter; lia).
    by rewrite length_alter, Nat.sub_diag.
  - unfold update_node, with_nodes, with_player. cbn.
    rewrite Hb, !list_alter_alter_eq.
    f_equal. f_equal.
    rewrite alter_app_r_alt by lia.
    by rewrite Nat.sub_diag.
Qed.

End PlayerFacts.

(** ** The invariant *)
Section Invariant.

Lemma can_fire_true (nd : AudioBufferSourceNode) :
  can_fire nd = true ↔
  onended nd = Some EndedClosure ∧ (phase nd = Started ∨ phase nd = Stopped).
Proof.
  unfold can_fire.
  destruct (onended nd) as [[]|], (phase nd); split; try done;
    try (by intros [? [? | ?]]); auto.
Qed.

(** What the dispatch of [ended] at a node does. *)
Lemma dispatch_ended_fires (w : World) (n : nat) (nd : AudioBufferSourceNode) :
  nodes w !! n = Some nd → can_fire nd = true →
  dispatch_ended n w
  = ({| player := set_sourceNode None (player w);
        nodes := alter (set_phase Ended) n (nodes w);
        awaiting := awaiting w |},
     match onEndedCallback (player w) with
     | Some cb => [Fired n cb (state_of (set_sourceNode None (player w)))]
     | None => []
     end).
Proof.
  intros Hn Hf. apply can_fire_true in Hf as [Ho Hp].
  unfold dispatch_ended, ended_closure. rewrite Hn, Ho.
  destruct Hp as [-> | ->]; cbn; by destruct (onEndedCallback (player w)).
Qed.

Lemma dispatch_ended_quiet (w : World) (n : nat) :
  (∀ nd, nodes w !! n = Some nd → can_fire nd = false) →
  (dispatch_ended n w).2 = []
  ∧ player (dispatch_ended n w).1 = player w
  ∧ awaiting (dispatch_ended n w).1 = awaiting w
  ∧ (nodes (dispatch_ended n w).1 = nodes w
     ∨ nodes (dispatch_ended n w).1 = alter (set_phase Ended) n (nodes w)).
Proof.
  intros Hq. unfold dispatch_ended.
  destruct (nodes w !! n) as [nd|] eqn:Hn; [|by auto].
  specialize (Hq nd eq_refl). unfold can_fire in Hq.
  destruct (phase nd), (onended nd) as [[]|]; try done; cbn; auto.
Qed.

Lemma new_consistent (pf : Platform) (base64 : string) :
  consistent (new_AudioPlayer pf base64).
Proof. split; try done. intros r Hr. inversion Hr. Qed.

Lemma load_consistent (w : World) : consistent w → consistent (load w).1.
Proof.
  intros Hw. unfold load.
  destruct (audioBuffer (player w)) eqn:Hb; [exact Hw|].
  destruct (decode (base64Audio (player w))) as [decoded|e] eqn:Hd; [|exact Hw].
  destruct Hw as [H1 H2 H3 H4 H5].
  split; try done. cbn. intros r Hr.
  apply elem_of_app in Hr as [Hr | Hr]; [by apply H3|].
  apply list_elem_of_singleton in Hr as ->.
  unfold pipeline. by rewrite Hd.
Qed.

Lemma load_resume_consistent (w : World) (k : nat) :
  consistent w → consistent (load_resume k w).1.
Proof.
  intros Hw. unfold load_resume.
  destruct (awaiting w !! k) as [r|] eqn:Hk; [|exact Hw].
  destruct Hw as [H1 H2 H3 H4 H5].
  assert (Hr : r = pipeline (player w)).
  { apply H3. by eapply list_elem_of_lookup_2. }
  assert (Hsub : ∀ r', r' ∈ delete k (awaiting w) → r' = pipeline (player w)).
  { intros r' Hr'. apply H3. by eapply list_elem_of_delete_inv. }
  destruct r as [b|e]; cbn.
  - split; cbn; try done.
    + intros n Hn. destruct (H1 n Hn) as [_ Hnd]. split; [by eexists | done].
    + by intros b' [= <-].
  - by split.
Qed.

Lemma stop_consistent (w : World) : consistent w → consistent (stop w).1.
Proof.
  intros Hw.
  destruct (sourceNode (player w)) as [n|] eqn:Hs;
    [| by rewrite stop_idle].
  destruct Hw as [H1 H2 H3 H4 H5].
  rewrite (stop_session w n Hs). split; cbn; try done.
  intros m nd Hm Hf. exfalso.
  destruct (decide (n = m)) as [-> | Hne].
  - rewrite list_lookup_alter_eq in Hm.
    destruct (nodes w !! m) as [nd0|]; [|done]. injection Hm as <-.
    unfold can_fire, node_stop in Hf. cbn in Hf.
    by destruct (phase nd0).
  - rewrite list_lookup_alter_ne in Hm by done.
    specialize (H2 m nd Hm Hf). congruence.
Qed.

Lemma play_consistent (w : World) : consistent w → consistent (play w).1.
Proof.
  intros Hw. destruct (audioBuffer (player w)) as [b|] eqn:Hb.
  - rewrite (play_loaded w b Hb).
    pose proof (stop_consistent w Hw) as Hstop.
    assert (H1 : ∃ w1, consistent w1
                 ∧ sourceNode (player w1) = None
                 ∧ audioBuffer (player w1) = Some b
                 ∧ length (nodes w1) = length (nodes w)
                 ∧ awaiting w1 = awaiting w
                 ∧ (match sourceNode (player w) with
                    | Some _ => stop w
                    | None => (w, [])
                    end).1 = w1).
    { destruct (sourceNode (player w)) as [n|] eqn:Hs.
      - exists (stop w).1. split; [done|].
        rewrite (stop_session w n Hs). cbn. by rewrite length_alter.
      - by exists w. }
    destruct H1 as (w1 & [C1 C2 C3 C4 C5] & Hnone & Hbuf & Hlen & Haw & ->).
    cbn. split; cbn.
    + intros n [= <-]. split; [by eexists|].
      eexists. split.
      * rewrite <- Hlen, lookup_app_r by lia. by rewrite Nat.sub_diag.
      * done.
    + intros n nd Hn Hf.
      destruct (decide (n < length (nodes w1))%nat) as [Hlt | Hge].
      * rewrite lookup_app_l in Hn by done.
        specialize (C2 n nd Hn Hf). congruence.
      * apply lookup_lt_Some in Hn as Hn'. rewrite length_app in Hn'.
        cbn in Hn'. f_equal. lia.
    + intros r Hr. rewrite <- Haw in Hr. by apply C3.
    + done.
    + done.
  - unfold play. by rewrite Hb.
Qed.

Lemma onEnded_consistent (w : World) (cb : Callback) :
  consistent w → consistent (onEnded cb w).1.
Proof. intros [H1 H2 H3 H4 H5]. by split. Qed.

Lemma dispatch_ended_consistent (w : World) (n : nat) :
  consistent w → consistent (dispatch_ended n w).1.
Proof.
  intros Hw.
  destruct (nodes w !! n) as [nd|] eqn:Hn;
    [| unfold dispatch_ended; by rewrite Hn].
  destruct Hw as [H1 H2 H3 H4 H5].
  destruct (can_fire nd) eqn:Hf.
  - rewrite (dispatch_ended_fires w n nd Hn Hf).
    pose proof (H2 n nd Hn Hf) as Hs.
    split; cbn; try done.
    intros m nd' Hm Hf'. exfalso.
    destruct (decide (n = m)) as [-> | Hne].
    + rewrite list_lookup_alter_eq, Hn in Hm. injection Hm as <-.
      unfold can_fire in Hf'. cbn in Hf'. by destruct (onended nd).
    + rewrite list_lookup_alter_ne in Hm by done.
      specialize (H2 m nd' Hm Hf'). congruence.
  - destruct (dispatch_ended_quiet w n) as (_ & Hp & Ha & Hnodes).
    { intros nd' Hnd'. congruence. }
    destruct (dispatch_ended n w) as [w' ev]. cbn in *.
    destruct Hnodes as [Hnodes | Hnodes].
    + split; rewrite ?Hp, ?Ha, ?Hnodes; done.
    + split; rewrite ?Hp, ?Ha, ?Hnodes; try done.
      * intros m Hm. destruct (H1 m Hm) as [Hbuf (nd' & Hnd' & Ho & Hph)].
        split; [done|]. exists nd'. split; [|done].
        rewrite list_lookup_alter_ne; [done|]. intros ->.
        assert (nd' = nd) as -> by congruence.
        unfold can_fire in Hf. by rewrite Ho, Hph in Hf.
      * intros m nd' Hm Hf'.
        destruct (decide (n = m)) as [-> | Hne].
        -- rewrite list_lookup_alter_eq, Hn in Hm. injection Hm as <-.
           unfold can_fire in Hf'. cbn in Hf'. by destruct (onended nd).
        -- rewrite list_lookup_alter_ne in Hm by done. by apply (H2 m nd').
Qed.

Lemma step_consistent (a : Action) (w : World) :
  consistent w → consistent (step a w).1.
Proof.
  destruct a; cbn [step];
    auto using load_consistent, load_resume_consistent, play_consistent,
      stop_consistent, onEnded_consistent, dispatch_ended_consistent.
Qed.

Lemma run_cons (a : Action) (acts : list Action) (w : World) :
  run (a :: acts) w
  = ((run acts (step a w).1).1, (step a w).2 ++ (run acts (step a w).1).2).
Proof.
  cbn [run]. destruct (step a w) as [w1 ev1]. cbn.
  by destruct (run acts w1).
Qed.

Lemma run_app (acts1 acts2 : list Action) (w : World) :
  run (acts1 ++ acts2) w
  = ((run acts2 (run acts1 w).1).1,
     (run acts1 w).2 ++ (run acts2 (run acts1 w).1).2).
Proof.
  revert w. induction acts1 as [|a acts1 IH]; intros w.
  - cbn. by destruct (run acts2 w).
  - rewrite <- app_comm_cons, !run_cons, IH. cbn. by rewrite app_assoc.
Qed.

Lemma run_consistent (acts : list Action) (w : World) :
  consistent w → consistent (run acts w).1.
Proof.
  revert w. induction acts as [|a acts IH]; intros w Hw; [done|].
  rewrite run_cons. cbn. apply IH. by apply step_consistent.
Qed.

Lemma reachable_consistent (w : World) : reachable w → consistent w.
Proof.
  intros (pf & base64 & acts & <-). apply run_consistent, new_consistent.
Qed.

Lemma reachable_run (acts : list Action) (w : World) :
  reachable w → reachable (run acts w).1.
Proof.
  intros (pf & base64 & acts0 & <-). exists pf, base64, (acts0 ++ acts).
  by rewrite run_app.
Qed.

End Invariant.

(** ** Sessions that have been stopped or have ended stay silent *)
Section Silence.

Lemma can_fire_ended (nd : AudioBufferSourceNode) :
  can_fire (set_phase Ended nd) = false.
Proof. unfold can_fire. cbn. by destruct (onended nd). Qed.

Lemma can_fire_stopped (nd : AudioBufferSourceNode) :
  can_fire (node_stop (set_onended None nd)) = false.
Proof. unfold can_fire, node_stop. cbn. by destruct (phase nd). Qed.

Lemma silent_alter (n m : nat) (f : AudioBufferSourceNode → AudioBufferSourceNode)
    (h : list AudioBufferSourceNode) (nd : AudioBufferSourceNode) :
  h !! n = Some nd → can_fire nd = false →
  (∀ nd', can_fire (f nd') = false) →
  ∃ nd', alter f m h !! n = Some nd' ∧ can_fire nd' = false.
Proof.
  intros Hn Hq Hf. destruct (decide (m = n)) as [-> | Hne].
  - exists (f nd). by rewrite list_lookup_alter_eq, Hn.
  - exists nd. by rewrite list_lookup_alter_ne.
Qed.

Lemma dispatch_ended_shape (w : World) (m : nat) :
  (nodes (dispatch_ended m w).1 = nodes w
   ∨ nodes (dispatch_ended m w).1 = alter (set_phase Ended) m (nodes w))
  ∧ ∀ e, e ∈ (dispatch_ended m w).2 → ∃ cb seen, e = Fired m cb seen.
Proof.
  destruct (nodes w !! m) as [nd|] eqn:Hm.
  - destruct (can_fire nd) eqn:Hf.
    + rewrite (dispatch_ended_fires w m nd Hm Hf). cbn. split; [by right|].
      intros e He. destruct (onEndedCallback (player w)); [|inversion He].
      apply list_elem_of_singleton in He as ->. by eexists _, _.
    + destruct (dispatch_ended_quiet w m) as (Hev & _ & _ & Hnodes).
      { intros nd' Hnd'. congruence. }
      split; [done|]. rewrite Hev. intros e He. inversion He.
  - unfold dispatch_ended. rewrite Hm. cbn. split; [by left|].
    intros e He. inversion He.
Qed.

Lemma stop_silent (w : World) (n : nat) :
  silent n w → silent n (stop w).1 ∧ never_fired n (stop w).2.
Proof.
  intros (nd & Hn & Hq).
  destruct (sourceNode (player w)) as [m|] eqn:Hs.
  - rewrite (stop_session w m Hs). cbn. split.
    + by apply (silent_alter n m _ _ nd), can_fire_stopped.
    + intros cb seen He. apply list_elem_of_singleton in He. done.
  - rewrite stop_idle by done. split; [by exists nd|].
    intros cb seen He. inversion He.
Qed.

Lemma play_silent (w : World) (n : nat) :
  silent n w → silent n (play w).1 ∧ never_fired n (play w).2.
Proof.
  intros Hsil. destruct (audioBuffer (player w)) as [b|] eqn:Hb.
  - rewrite (play_loaded w b Hb). cbn.
    assert (H1 : silent n
                   (match sourceNode (player w) with
                    | Some _ => stop w
                    | None => (w, [])
                    end).1
                 ∧ never_fired n
                     (match sourceNode (player w) with
                      | Some _ => stop w
                      | None => (w, [])
                      end).2).
    { destruct (sourceNode (player w)); [by apply stop_silent|].
      split; [done|]. intros cb seen He. inversion He. }
    destruct H1 as [(nd & Hn & Hq) Hev]. split.
    + exists nd. cbn. split; [|done].
      rewrite lookup_app_l; [done|]. by eapply lookup_lt_Some.
    + intros cb seen He. apply elem_of_app in He as [He | He].
      * by apply (Hev cb seen).
      * apply list_elem_of_singleton in He. done.
  - unfold play. rewrite Hb. split; [done|].
    intros cb seen He. apply list_elem_of_singleton in He. done.
Qed.

Lemma step_silent (a : Action) (w : World) (n : nat) :
  silent n w → silent n (step a w).1 ∧ never_fired n (step a w).2.
Proof.
  intros Hsil. destruct a as [| k | | | cb | m]; cbn [step].
  - unfold load. destruct (audioBuffer (player w)).
    { split; [done|]. intros cb seen He. inversion He. }
    destruct (decode _); (split; [done|]); intros cb seen He;
      repeat (apply elem_of_cons in He as [He | He]; [done|]); inversion He.
  - unfold load_resume. destruct (awaiting w !! k) as [[b|e]|];
      (split; [done|]); intros cb seen He;
      repeat (apply elem_of_cons in He as [He | He]; [done|]); inversion He.
  - by apply play_silent.
  - by apply stop_silent.
  - split; [done|]. intros cb' seen He. inversion He.
  - destruct Hsil as (nd & Hn & Hq).
    destruct (dispatch_ended_shape w m) as [Hnodes Hev]. split.
    + unfold silent. destruct Hnodes as [-> | ->]; [by exists nd|].
      by apply (silent_alter n m _ _ nd), can_fire_ended.
    + intros cb seen He. destruct (decide (m = n)) as [-> | Hne].
      * destruct (dispatch_ended_quiet w n) as (Hnil & _).
        { intros nd' Hnd'. congruence. }
        rewrite Hnil in He. inversion He.
      * destruct (Hev _ He) as (cb' & seen' & [= ? _ _]). done.
Qed.

(** Once a node is silent, no sequence of calls and events makes its
    [ended] event call a completion callback. *)
Lemma run_silent (acts : list Action) (w : World) (n : nat) :
  silent n w → never_fired n (run acts w).2.
Proof.
  revert w. induction acts as [|a acts IH]; intros w Hsil cb seen He.
  - inversion He.
  - rewrite run_cons in He. cbn in He.
    destruct (step_silent a w n Hsil) as [Hsil' Hev].
    apply elem_of_app in He as [He | He].
    + by apply (Hev cb seen).
    + by apply (IH _ Hsil' cb seen).
Qed.

End Silence.

(** ** What the controller guarantees *)
Section SessionFacts.

Lemma playing_fields (w : World) :
  state_of (player w) = Playing →
  ∃ n b, sourceNode (player w) = Some n ∧ audioBuffer (player w) = Some b.
Proof.
  unfold state_of.
  destruct (audioBuffer (player w)) as [b|], (sourceNode (player w)) as [n|];
    try done. by exists n, b.
Qed.

Lemma session_is_playing (w : World) (n : nat) :
  consistent w → sourceNode (player w) = Some n →
  state_of (player w) = Playing.
Proof.
  intros Hw Hs. destruct (session_started w Hw n Hs) as [[b Hb] _].
  unfold state_of. by rewrite Hb, Hs.
Qed.

Lemma stop_makes_silent (w : World) (n : nat) :
  consistent w → sourceNode (player w) = Some n → silent n (stop w).1.
Proof.
  intros Hw Hs. destruct (session_started w Hw n Hs) as [_ (nd & Hn & _)].
  rewrite (stop_session w n Hs). exists (node_stop (set_onended None nd)).
  cbn. split; [by rewrite list_lookup_alter_eq, Hn | apply can_fire_stopped].
Qed.

Lemma fired_count_app (n : nat) (l1 l2 : list Event) :
  fired_count n (l1 ++ l2) = (fired_count n l1 + fired_count n l2)%nat.
Proof. unfold fired_count. by rewrite List.filter_app, length_app. Qed.

Lemma never_fired_count (n : nat) (evs : list Event) :
  never_fired n evs → fired_count n evs = 0%nat.
Proof.
  unfold never_fired, fired_count. induction evs as [|e evs IH]; intros H; [done|].
  cbn. destruct (is_fired n e) eqn:He.
  - exfalso. destruct e; try done. cbn in He. apply Nat.eqb_eq in He as <-.
    apply (H cb seen). left.
  - apply IH. intros cb seen Hin. apply (H cb seen). by right.
Qed.

(** The completion callback is called at most once for a node, whatever
    happens. *)
Lemma fired_at_most_once (acts : list Action) (w : World) (n : nat) :
  (fired_count n (run acts w).2 ≤ 1)%nat.
Proof.
  revert w. induction acts as [|a acts IH]; intros w; [cbn; lia|].
  rewrite run_cons. cbn [snd]. rewrite fired_count_app.
  assert (Hstep : fired_count n (step a w).2 = 0%nat
                  ∨ fired_count n (step a w).2 = 1%nat ∧ silent n (step a w).1).
  { destruct a as [| k | | | cb | m]; cbn [step].
    - left. unfold load. destruct (audioBuffer (player w)); [done|].
      by destruct (decode _).
    - left. unfold load_resume. by destruct (awaiting w !! k) as [[b|e]|].
    - left. unfold play. destruct (audioBuffer (player w)) as [b|]; [|done].
      destruct (sourceNode (player w)) as [m|] eqn:Hs; [|done].
      by rewrite (stop_session w m Hs).
    - left. unfold stop. by destruct (sourceNode (player w)).
    - by left.
    - destruct (decide (m = n)) as [-> | Hne].
      + destruct (nodes w !! n) as [nd|] eqn:Hn.
        * destruct (can_fire nd) eqn:Hf.
          -- rewrite (dispatch_ended_fires w n nd Hn Hf). cbn [fst snd].
             destruct (onEndedCallback (player w)); [right | by left].
             split; [unfold fired_count; cbn; by rewrite Nat.eqb_refl|].
             exists (set_phase Ended nd). cbn.
             split; [by rewrite list_lookup_alter_eq, Hn | apply can_fire_ended].
          -- left. destruct (dispatch_ended_quiet w n) as (-> & _); [|done].
             intros nd' Hnd'. congruence.
        * left. unfold dispatch_ended. by rewrite Hn.
      + left. apply never_fired_count. intros cb seen He.
        destruct (dispatch_ended_shape w m) as [_ Hev].
        destruct (Hev _ He) as (cb' & seen' & [= -> _ _]). done. }
  destruct Hstep as [-> | [-> Hsil]].
  - apply IH.
  - by rewrite (never_fired_count n _ (run_silent acts _ n Hsil)).
Qed.

Lemma cached_step (a : Action) (w : World) (b : AudioBuffer) :
  consistent w → audioBuffer (player w) = Some b →
  audioBuffer (player (step a w).1) = Some b ∧ DecodeAttempt ∉ (step a w).2.
Proof.
  intros Hw Hb. destruct a as [| k | | | cb | m]; cbn [step].
  - rewrite load_cached by (by eexists). split; [done|]. by intros H%elem_of_nil.
  - unfold load_resume. destruct (awaiting w !! k) as [r|] eqn:Hk.
    + assert (r = Ok b) as ->.
      { rewrite <- (cached_pipeline w Hw b Hb).
        apply (awaiting_pipeline w Hw). by eapply list_elem_of_lookup_2. }
      cbn. split; [done|]. by intros H%elem_of_nil.
    + split; [done|]. by intros H%elem_of_nil.
  - rewrite (play_loaded w b Hb). cbn. split.
    + destruct (sourceNode (player w)) as [n|] eqn:Hs; [|done].
      by rewrite (stop_session w n Hs).
    + intros H. apply elem_of_app in H as [H | H].
      * destruct (sourceNode (player w)) as [n|] eqn:Hs; [|by inversion H].
        rewrite (stop_session w n Hs) in H. cbn in H.
        by apply list_elem_of_singleton in H.
      * by apply list_elem_of_singleton in H.
  - destruct (sourceNode (player w)) as [n|] eqn:Hs.
    + rewrite (stop_session w n Hs). cbn. split; [done|].
      by intros H%list_elem_of_singleton.
    + rewrite stop_idle by done. split; [done|]. by intros H%elem_of_nil.
  - cbn. split; [done|]. by intros H%elem_of_nil.
  - destruct (dispatch_ended_shape w m) as [_ Hev]. split.
    + destruct (nodes w !! m) as [nd|] eqn:Hm.
      * destruct (can_fire nd) eqn:Hf.
        -- by rewrite (dispatch_ended_fires w m nd Hm Hf).
        -- destruct (dispatch_ended_quiet w m) as (_ & -> & _); [|done].
           intros nd' Hnd'. congruence.
      * unfold dispatch_ended. by rewrite Hm.
    + intros H. by destruct (Hev _ H) as (cb & seen & ?).
Qed.

Lemma cached_run (acts : list Action) (w : World) (b : AudioBuffer) :
  consistent w → audioBuffer (player w) = Some b →
  audioBuffer (player (run acts w).1) = Some b ∧ DecodeAttempt ∉ (run acts w).2.
Proof.
  revert w. induction acts as [|a acts IH]; intros w Hw Hb.
  - cbn. split; [done|]. by intros H%elem_of_nil.
  - rewrite run_cons. cbn [fst snd].
    destruct (cached_step a w b Hw Hb) as [Hb' Hev].
    destruct (IH (step a w).1 (step_consistent a w Hw) Hb') as [Hb'' Hev'].
    split; [done|]. intros H. apply elem_of_app in H as [H | H]; done.
Qed.

Lemma run_cons_events (a : Action) (acts : list Action) (w : World) :
  (run (a :: acts) w).2 = (step a w).2 ++ (run acts (step a w).1).2.
Proof. by rewrite run_cons. Qed.

End SessionFacts.

(** ** The payload is never touched *)
Section PayloadFacts.

Lemma step_keeps_payload (a : Action) (w : World) :
  base64Audio (player (step a w).1) = base64Audio (player w)
  ∧ audioContext (player (step a w).1) = audioContext (player w).
Proof.
  destruct a as [| k | | | cb | m]; cbn [step].
  - unfold load. destruct (audioBuffer (player w)); [done|].
    by destruct (decode _).
  - unfold load_resume. by destruct (awaiting w !! k) as [[b|e]|].
  - destruct (audioBuffer (player w)) as [b|] eqn:Hb.
    + rewrite (play_loaded w b Hb). cbn.
      destruct (sourceNode (player w)) as [n|] eqn:Hs; [|done].
      by rewrite (stop_session w n Hs).
    + unfold play. by rewrite Hb.
  - destruct (sourceNode (player w)) as [n|] eqn:Hs.
    + by rewrite (stop_session w n Hs).
    + by rewrite stop_idle.
  - done.
  - destruct (nodes w !! m) as [nd|] eqn:Hm.
    + destruct (can_fire nd) eqn:Hf.
      * by rewrite (dispatch_ended_fires w m nd Hm Hf).
      * destruct (dispatch_ended_quiet w m) as (_ & -> & _); [|done].
        intros nd' Hnd'. congruence.
    + unfold dispatch_ended. by rewrite Hm.
Qed.

Lemma step_keeps_pipeline (a : Action) (w : World) :
  pipeline (player (step a w).1) = pipeline (player w).
Proof.
  unfold pipeline. destruct (step_keeps_payload a w) as [-> ->]. done.
Qed.

Lemma run_keeps_pipeline (acts : list Action) (w : World) :
  pipeline (player (run acts w).1) = pipeline (player w).
Proof.
  revert w. induction acts as [|a acts IH]; intros w; [done|].
  rewrite run_cons. cbn [fst]. by rewrite IH, step_keeps_pipeline.
Qed.

End PayloadFacts.

(** C3.  [play()] on a player without a buffer (state [Unloaded]) does not
    fail: it writes the console error of the code and returns.  Nothing
    is started, the player is left as it was, still [Unloaded], and
    nothing reaches the caller, here or in any other state: the caller
    cannot tell from the call whether playback has started. *)
Theorem play_before_load (w : World) :
  state_of (player w) = Unloaded →
  play w = (w, [ConsoleError "Audio not loaded yet."])
  ∧ state_of (player (play w).1) = Unloaded
  ∧ existsb reaches_caller (play w).2 = false
  ∧ ∀ w', existsb reaches_caller (play w').2 = false.
Proof.
  intros Hst. assert (Hb : audioBuffer (player w) = None).
  { unfold state_of in Hst.
    by destruct (audioBuffer (player w)), (sourceNode (player w)). }
  assert (Hquiet : ∀ w', existsb reaches_caller (play w').2 = false).
  { intros w'. destruct (audioBuffer (player w')) as [b|] eqn:Hb'.
    - rewrite (play_loaded w' b Hb'). cbn [snd].
      rewrite existsb_app. cbn [existsb reaches_caller orb].
      rewrite orb_false_r.
      destruct (sourceNode (player w')) as [n|] eqn:Hs; [|done].
      by rewrite (stop_session w' n Hs).
    - unfold play. by rewrite Hb'. }
  split_and!; [| |apply Hquiet|exact Hquiet]; unfold play; by rewrite Hb.
Qed.

Lemma play_before_load_witness :
  play (new_AudioPlayer reference_platform two_samples_base64)
  = (new_AudioPlayer reference_platform two_samples_base64,
     [ConsoleError "Audio not loaded yet."]).
Proof.
  apply (play_before_load (new_AudioPlayer reference_platform two_samples_base64)).
  reflexivity.
Defined.

(** The failure is not reported to the caller: on a fresh player [play()]
    only writes to the console, where the rejection of [load()] on a
    payload that cannot be decoded does reach its caller. *)
Example play_before_load_tells_nobody :
  let w := new_AudioPlayer reference_platform two_samples_base64 in
  state_of (player w) = Unloaded
  ∧ (play w).2 = [ConsoleError "Audio not loaded yet."]
  ∧ existsb reaches_caller (play w).2 = false
  ∧ existsb reaches_caller (load (new_AudioPlayer reference_platform "!")).2
    = true.
Proof. cbv zeta. split_and!; reflexivity. Qed.

(** C4.  [play()] on a playing player stops the session first: the sink is
    told to stop the old node and to start a fresh one from offset 0, the
    fresh node is the session of the player, which is [Playing], and the
    completion callback is never called for the old session, neither by
    this call nor by anything that happens later. *)
Theorem play_while_playing (w : World) :
  reachable w → state_of (player w) = Playing →
  ∃ old b,
    sourceNode (player w) = Some old ∧ audioBuffer (player w) = Some b
    ∧ (play w).2 = [SinkStop old; SinkStart (length (nodes w)) 0]
    ∧ length (nodes w) ≠ old
    ∧ sourceNode (player (play w).1) = Some (length (nodes w))
    ∧ state_of (player (play w).1) = Playing
    ∧ nodes (play w).1 !! length (nodes w)
      = Some {| buffer := Some b; connected := true;
                onended := Some EndedClosure; phase := Started |}
    ∧ ∀ acts, never_fired old (run (CallPlay :: acts) w).2.
Proof.
  intros Hr Hst. apply reachable_consistent in Hr as Hw.
  destruct (playing_fields w Hst) as (old & b & Hs & Hb).
  exists old, b. split; [done|]. split; [done|].
  destruct (session_started w Hw old Hs) as [_ (nd & Hn & _)].
  apply lookup_lt_Some in Hn as Hlt.
  pose proof (stop_makes_silent w old Hw Hs) as Hsil.
  assert (Hsil' : silent old (play w).1).
  { destruct Hsil as (nd' & Hn' & Hq). exists nd'. split; [|done].
    rewrite (play_loaded w b Hb), Hs. cbn.
    rewrite lookup_app_l; [done|]. by eapply lookup_lt_Some. }
  assert (Hplay : play w
            = ({| player := set_sourceNode (Some (length (nodes w)))
                              (set_sourceNode None (player w));
                  nodes := alter (node_stop ∘ set_onended None) old (nodes w) ++
                    [{| buffer := Some b; connected := true;
                        onended := Some EndedClosure; phase := Started |}];
                  awaiting := awaiting w |},
               [SinkStop old; SinkStart (length (nodes w)) 0])).
  { by rewrite (play_loaded w b Hb), Hs, (stop_session w old Hs). }
  repeat split.
  - by rewrite Hplay.
  - lia.
  - by rewrite Hplay.
  - rewrite Hplay. unfold state_of. cbn. by rewrite Hb.
  - rewrite Hplay. cbn. rewrite lookup_app_r by (rewrite length_alter; lia).
    by rewrite length_alter, Nat.sub_diag.
  - intros acts cb seen He. rewrite run_cons_events in He. cbn [step] in He.
    apply elem_of_app in He as [He | He].
    + rewrite Hplay in He. cbn in He.
      repeat (apply elem_of_cons in He as [He | He]; [done|]). inversion He.
    + by apply (run_silent acts _ old Hsil' cb seen).
Qed.

Lemma play_while_playing_witness :
  ∃ old b,
    sourceNode (player playing_world) = Some old
    ∧ audioBuffer (player playing_world) = Some b
    ∧ (play playing_world).2 = [SinkStop old; SinkStart 1 0].
Proof.
  destruct (play_while_playing playing_world) as (old & b & H1 & H2 & H3 & _).
  - exists reference_platform, two_samples_base64,
      [CallLoad; ResumeLoad 0%nat; CallOnEnded 7%nat; CallPlay]. reflexivity.
  - reflexivity.
  - exists old, b. split; [exact H1|]. split; [exact H2 | exact H3].
Defined.

(** C5.  [stop()] on a playing player tells the sink to stop the session,
    leaves the player [Loaded], and the completion callback is never
    called for that session, neither by the call nor later.  On a player
    that is not playing it does nothing: the state is unchanged and there
    is no event. *)
Theorem stop_is_silent (w : World) :
  reachable w →
  (state_of (player w) = Playing →
   ∃ n, sourceNode (player w) = Some n
        ∧ (stop w).2 = [SinkStop n]
        ∧ state_of (player (stop w).1) = Loaded
        ∧ ∀ acts, never_fired n (run (CallStop :: acts) w).2)
  ∧ (state_of (player w) ≠ Playing → stop w = (w, [])).
Proof.
  intros Hr. apply reachable_consistent in Hr as Hw. split.
  - intros Hst. destruct (playing_fields w Hst) as (n & b & Hs & Hb).
    exists n. split; [done|].
    pose proof (stop_makes_silent w n Hw Hs) as Hsil.
    repeat split.
    + by rewrite (stop_session w n Hs).
    + rewrite (stop_session w n Hs). unfold state_of. cbn. by rewrite Hb.
    + intros acts cb seen He. rewrite run_cons_events in He. cbn [step] in He.
      apply elem_of_app in He as [He | He].
      * rewrite (stop_session w n Hs) in He. cbn in He.
        by apply list_elem_of_singleton in He.
      * by apply (run_silent acts _ n Hsil cb seen).
  - intros Hst. apply stop_idle.
    destruct (sourceNode (player w)) as [n|] eqn:Hs; [|done].
    exfalso. apply Hst. by apply (session_is_playing w n).
Qed.

Lemma stop_is_silent_witness :
  (∃ n, sourceNode (player playing_world) = Some n
        ∧ (stop playing_world).2 = [SinkStop n])
  ∧ stop loaded_world = (loaded_world, []).
Proof.
  destruct (stop_is_silent playing_world) as [Hplaying _].
  { exists reference_platform, two_samples_base64,
      [CallLoad; ResumeLoad 0%nat; CallOnEnded 7%nat; CallPlay]. reflexivity. }
  destruct (stop_is_silent loaded_world) as [_ Hidle].
  { exists reference_platform, two_samples_base64,
      [CallLoad; ResumeLoad 0%nat]. reflexivity. }
  split.
  - destruct (Hplaying eq_refl) as (n & H1 & H2 & _).
    exists n. split; [exact H1 | exact H2].
  - apply Hidle. discriminate.
Defined.

(** C8.  On a player that holds a buffer, [load()] does nothing: the
    state is unchanged, the decoders are not run and no call is left
    suspended, however often it is repeated.  From then on the buffer is
    never decoded again and the cached value never changes, whatever is
    called and whatever events arrive.  While no buffer is held, every
    [load()] runs the decoders, so [k] calls made before the first has
    stored its buffer decode [k] times; all of them compute the same
    result, and a buffer that is ever stored is that result. *)
Theorem load_is_idempotent (w : World) :
  reachable w →
  (∀ b, audioBuffer (player w) = Some b →
     load w = (w, [])
     ∧ (∀ k, run (replicate k CallLoad) w = (w, []))
     ∧ ∀ acts, audioBuffer (player (run acts w).1) = Some b
               ∧ DecodeAttempt ∉ (run acts w).2)
  ∧ (audioBuffer (player w) = None →
     ∀ k, decode_count (run (replicate k CallLoad) w).2 = k)
  ∧ ∀ acts,
      (∀ r, r ∈ awaiting (run acts w).1 → r = pipeline (player w))
      ∧ ∀ b, audioBuffer (player (run acts w).1) = Some b →
             pipeline (player w) = Ok b.
Proof.
  intros Hr. apply reachable_consistent in Hr as Hw. split_and!.
  - intros b Hb.
    assert (Hload : load w = (w, [])) by (apply load_cached; by eexists).
    split; [done|]. split.
    + induction k as [|k IH]; [done|].
      cbn [replicate]. rewrite run_cons. cbn [step]. rewrite Hload.
      cbn [fst snd]. by rewrite IH.
    + intros acts. by apply cached_run.
  - intros Hb k. clear Hr Hw. revert w Hb.
    induction k as [|k IH]; intros w Hb; [done|].
    cbn [replicate]. rewrite run_cons. cbn [step fst snd].
    unfold decode_count in *. rewrite List.filter_app, length_app.
    assert (Hload : length (List.filter is_decode (load w).2) = 1%nat
                    ∧ audioBuffer (player (load w).1) = None).
    { unfold load. rewrite Hb.
      by destruct (decode (base64Audio (player w))). }
    destruct Hload as [-> Hb']. by rewrite (IH _ Hb').
  - intros acts. pose proof (run_consistent acts w Hw) as Hw'.
    pose proof (run_keeps_pipeline acts w) as Hp. split.
    + intros r Hin. rewrite <- Hp. by apply (awaiting_pipeline _ Hw').
    + intros b Hb. rewrite <- Hp. by apply (cached_pipeline _ Hw').
Qed.

Lemma load_is_idempotent_witness :
  load loaded_world = (loaded_world, [])
  ∧ decode_count
      (run [CallLoad; CallLoad; CallLoad]
           (new_AudioPlayer reference_platform two_samples_base64)).2
    = 3%nat.
Proof.
  split.
  - destruct (load_is_idempotent loaded_world) as [H _].
    + exists reference_platform, two_samples_base64, [CallLoad; ResumeLoad 0%nat].
      reflexivity.
    + destruct (H {| numberOfChannels := 1; frames := 2; sampleRate := 24000;
                     channelData := [[(-1)%float; 0.999969482421875%float]] |}
                  eq_refl) as [Hload _].
      exact Hload.
  - destruct (load_is_idempotent
                (new_AudioPlayer reference_platform two_samples_base64))
      as (_ & H & _).
    + by exists reference_platform, two_samples_base64, [].
    + exact (H eq_refl 3%nat).
Defined.

(** One player can decode its payload more than once: two [load()] calls
    made before the first has stored its buffer both run the decoders. *)
Example overlapping_loads_decode_twice :
  (run [CallLoad; CallLoad; ResumeLoad 0%nat; ResumeLoad 0%nat]
       (new_AudioPlayer reference_platform two_samples_base64)).2
  = [DecodeAttempt; DecodeAttempt].
Proof. reflexivity. Qed.

(** C9.  When the [ended] event of the session arrives (natural
    completion), the player clears the session and is [Loaded], and then
    the callback registered at that moment is called, once: the callback
    sees the state [Loaded], and the completion callback is never called
    for this session again; over any sequence of calls and events it is
    called at most once.  A callback registered by [onEnded] before the
    event arrives is the one that is called. *)
Theorem natural_completion (w : World) (n : nat) :
  reachable w → sourceNode (player w) = Some n →
  state_of (player w) = Playing
  ∧ (dispatch_ended n w).2
    = match onEndedCallback (player w) with
      | Some cb => [Fired n cb Loaded]
      | None => []
      end
  ∧ sourceNode (player (dispatch_ended n w).1) = None
  ∧ state_of (player (dispatch_ended n w).1) = Loaded
  ∧ (∀ acts, never_fired n (run acts (dispatch_ended n w).1).2)
  ∧ (∀ acts, (fired_count n (run acts w).2 ≤ 1)%nat)
  ∧ ∀ cb', (run [CallOnEnded cb'; EndedEvent n] w).2 = [Fired n cb' Loaded].
Proof.
  intros Hr Hs. apply reachable_consistent in Hr as Hw.
  destruct (session_started w Hw n Hs) as [[b Hb] (nd & Hn & Ho & Hp)].
  assert (Hf : can_fire nd = true) by (apply can_fire_true; auto).
  assert (Hloaded : state_of (set_sourceNode None (player w)) = Loaded).
  { unfold state_of. cbn. by rewrite Hb. }
  split; [by apply (session_is_playing w n)|].
  rewrite (dispatch_ended_fires w n nd Hn Hf). cbn [fst snd]. rewrite Hloaded.
  repeat split; try done.
  - intros acts. apply run_silent. exists (set_phase Ended nd). cbn.
    split; [by rewrite list_lookup_alter_eq, Hn | apply can_fire_ended].
  - intros acts. apply fired_at_most_once.
  - intros cb'. rewrite run_cons. cbn [step onEnded fst snd].
    rewrite run_cons. cbn [step run fst snd].
    rewrite (dispatch_ended_fires _ n nd); [| done | done].
    cbn. unfold state_of. cbn. by rewrite Hb.
Qed.

Lemma natural_completion_witness :
  (dispatch_ended 0 playing_world).2 = [Fired 0 7%nat Loaded]
  ∧ (run [CallOnEnded 8%nat; EndedEvent 0%nat] playing_world).2
    = [Fired 0 8%nat Loaded].
Proof.
  destruct (natural_completion playing_world 0) as (_ & H1 & _ & _ & _ & _ & H2).
  - exists reference_platform, two_samples_base64,
      [CallLoad; ResumeLoad 0%nat; CallOnEnded 7%nat; CallPlay]. reflexivity.
  - reflexivity.
  - split; [exact H1 | exact (H2 8%nat)].
Defined.

(** C10.  The buffer of a player, whatever its payload and whatever has
    been called, has one channel and the rate 24000 Hz: it is the result
    of converting the decoded payload with these two constants, which no
    caller supplies.  The audio context of the player has the same fixed
    rate. *)
Theorem loaded_buffer_format (w : World) (b : AudioBuffer) :
  reachable w → audioBuffer (player w) = Some b →
  numberOfChannels b = 1%nat
  ∧ sampleRate b = 24000
  ∧ length (channelData b) = 1%nat
  ∧ contextRate (audioContext (player w)) = 24000
  ∧ ∃ decoded, decode (base64Audio (player w)) = Ok decoded
               ∧ decodeAudioData decoded (audioContext (player w)) 24000 1 = Ok b.
Proof.
  intros Hr Hb. apply reachable_consistent in Hr as Hw.
  pose proof (cached_pipeline w Hw b Hb) as Hp. unfold pipeline in Hp.
  destruct (decode (base64Audio (player w))) as [decoded|e]; [|done].
  cbn in Hp.
  destruct (decodeAudioData_Ok _ _ _ _ _ Hp) as (_ & _ & Hn & _ & _ & Hrate & Hl & _).
  repeat split; try done; [apply (context_rate w Hw) | by exists decoded].
Qed.

Lemma loaded_buffer_format_witness :
  ∃ b, audioBuffer (player loaded_world) = Some b
       ∧ numberOfChannels b = 1%nat ∧ sampleRate b = 24000.
Proof.
  eexists. split; [reflexivity|].
  destruct (loaded_buffer_format loaded_world
              {| numberOfChannels := 1; frames := 2; sampleRate := 24000;
                 channelData := [[(-1)%float; 0.999969482421875%float]] |})
    as (H1 & H2 & _).
  - exists reference_platform, two_samples_base64, [CallLoad; ResumeLoad 0%nat].
    reflexivity.
  - reflexivity.
  - by split.
Defined.

(** * Further properties of the converter and the player *)

Section ForgivingRoundTrip.
Import Base64 Base64Encoder.

Lemma strip_padding_plain (body : list ascii) :
  Forall (λ c, is_equals c = false) body → strip_padding body = body.
Proof.
  intros Hbody. unfold strip_padding.
  destruct (length body mod 4 =? 0)%nat; [|done].
  assert (Hrev : ∀ c r, rev body = c :: r → is_equals c = false).
  { intros c r Hr. rewrite Forall_forall in Hbody. apply Hbody.
    apply list_elem_of_In, in_rev. rewrite Hr. by left. }
  destruct (rev body) as [|c1 [|c2 r]] eqn:Hr; [done| |].
  - by rewrite (Hrev c1 [] eq_refl).
  - by rewrite (Hrev c1 (c2 :: r) eq_refl).
Qed.

Lemma decode_cleaned (s : string) (bytes : list byte) :
  cleaned s = map alphabet (groups bytes) → decode s = Ok bytes.
Proof.
  intros Hs. rewrite decode_unfold, Hs.
  destruct (encoded_shape bytes) as (Hlen & _).
  destruct (sextets_alphabet _ (groups_small bytes)) as [-> ->].
  rewrite length_map.
  destruct (length (groups bytes) mod 4 =? 1)%nat eqn:E;
    [by apply Nat.eqb_eq in E|].
  unfold initial. rewrite flush_groups. cbn [app].
  by rewrite bytes_of_ascii_of_bytes.
Qed.

End ForgivingRoundTrip.

(** X1.  [decode] inverts the standard encoder, and it does so whatever
    the transport did to the layout of the text: a text that, once its
    ASCII whitespace is taken out, is the standard encoding of [bytes],
    with or without its padding, decodes to exactly [bytes]. *)
Theorem decode_round_trip (bytes : list byte) (s : string) :
  (let data := filter (λ c, Base64.is_ascii_whitespace c = false)
                      (list_ascii_of_string s) in
   data = list_ascii_of_string (Base64Encoder.btoa bytes)
   ∨ data = map Base64Encoder.alphabet (Base64Encoder.groups bytes)) →
  decode s = Ok bytes.
Proof.
  cbv zeta. intros [Hs | Hs]; apply decode_cleaned.
  - rewrite <- (cleaned_btoa bytes). unfold Base64.cleaned.
    rewrite Hs. f_equal. unfold Base64Encoder.btoa.
    rewrite !list_ascii_of_string_of_list_ascii.
    destruct (alphabet_clean _ (groups_small bytes)) as [Hf1 _].
    destruct (encoded_shape bytes) as (_ & _ & Hpad).
    rewrite filter_app, Hf1. f_equal.
    destruct Hpad as [-> | [_ [-> | ->]]]; done.
  - unfold Base64.cleaned. rewrite Hs. apply strip_padding_plain.
    by destruct (alphabet_clean _ (groups_small bytes)) as [_ H].
Qed.

Lemma decode_round_trip_witness :
  decode ("AID/" ++ String (ascii_of_N 10) " fw") = Ok two_samples
  ∧ decode two_samples_base64 = Ok two_samples.
Proof.
  split; apply decode_round_trip; cbv zeta; [right | left]; reflexivity.
Defined.

(** X2.  The conversion fails in exactly two ways.  An odd byte length
    throws [RangeError].  An even one throws [NotSupportedError] exactly
    when the channel count is zero or above what the platform supports,
    the bytes hold fewer samples than there are channels (no whole frame;
    the empty sequence is such a case) or the rate is outside the
    platform's range.  In every other case a buffer is returned;
    [IndexSizeError] is never thrown. *)
Theorem decodeAudioData_outcome (data : Uint8Array) (ctx : AudioContext)
    (rate : Z) (numChannels : nat) :
  ((length data mod 2 ≠ 0)%nat →
   decodeAudioData data ctx rate numChannels = Throw RangeError)
  ∧ ((length data mod 2 = 0)%nat →
     unsupported ctx rate numChannels (length data) →
     decodeAudioData data ctx rate numChannels = Throw NotSupportedError)
  ∧ ((length data mod 2 = 0)%nat →
     ¬ unsupported ctx rate numChannels (length data) →
     ∃ b, decodeAudioData data ctx rate numChannels = Ok b)
  ∧ decodeAudioData data ctx rate numChannels ≠ Throw IndexSizeError
  ∧ decodeAudioData [] ctx rate numChannels = Throw NotSupportedError.
Proof.
  assert (Hodd : (length data mod 2 ≠ 0)%nat →
                 decodeAudioData data ctx rate numChannels = Throw RangeError).
  { intros H. unfold decodeAudioData. by rewrite Int16Array_odd. }
  assert (Hguard : ∀ d : Uint8Array, (length d mod 2 = 0)%nat →
            unsupported ctx rate numChannels (length d) →
            decodeAudioData d ctx rate numChannels = Throw NotSupportedError).
  { intros d Hev Hun. unfold decodeAudioData.
    rewrite Int16Array_even by done. unfold mbind, Result_bind, createBuffer.
    unfold to_unsigned_long. cbn [numer denom].
    rewrite int16_elements_length.
    destruct (_ || _) eqn:Hg; [done|]. exfalso.
    apply orb_false_iff in Hg as [Hg Hmax].
    apply orb_false_iff in Hg as [Hg Hmin].
    apply orb_false_iff in Hg as [Hg Hlen].
    apply orb_false_iff in Hg as [Hzero Hbig].
    apply Nat.eqb_neq in Hzero, Hlen. apply Nat.ltb_ge in Hbig.
    apply Z.ltb_ge in Hmin, Hmax.
    destruct Hun as [? | [? | [Hfew | [? | ?]]]]; try lia.
    apply Hlen. by apply Nat.div_small. }
  assert (Hok : (length data mod 2 = 0)%nat →
                ¬ unsupported ctx rate numChannels (length data) →
                ∃ b, decodeAudioData data ctx rate numChannels = Ok b).
  { intros Hev Hsup. unfold unsupported in Hsup.
    apply decodeAudioData_succeeds; [done | lia | | lia].
    assert (numChannels ≤ length data / 2)%nat by lia.
    pose proof (Nat.Div0.mul_div_le (length data) 2). nia. }
  repeat split; try done.
  - by apply Hguard.
  - destruct (decide (length data mod 2 = 0)%nat) as [Hev | Ho].
    + destruct (decide (unsupported ctx rate numChannels (length data)))
        as [Hun | Hsup].
      * rewrite (Hguard data Hev Hun). done.
      * destruct (Hok Hev Hsup) as [b ->]. done.
    + by rewrite (Hodd Ho).
  - apply Hguard; [done|]. unfold unsupported. cbn.
    destruct numChannels; [by left | right; right; left; lia].
Qed.

(** ** The heap of source nodes *)
Section HeapFacts.

Lemma node_ok_pipeline (p p' : AudioPlayer) (nd : AudioBufferSourceNode) :
  pipeline p' = pipeline p → node_ok p nd → node_ok p' nd.
Proof. unfold node_ok. by intros ->. Qed.

Lemma node_ok_stopped (p : AudioPlayer) (nd : AudioBufferSourceNode) :
  node_ok p nd → node_ok p (node_stop (set_onended None nd)).
Proof.
  intros (H1 & H2 & H3 & H4). unfold node_ok, node_stop. cbn.
  destruct (phase nd) eqn:Hp; cbn; rewrite ?Hp; repeat split; try done.
Qed.

Lemma node_ok_ended (p : AudioPlayer) (nd : AudioBufferSourceNode) :
  node_ok p nd → node_ok p (set_phase Ended nd).
Proof. intros (H1 & H2 & H3 & H4). unfold node_ok. cbn. by repeat split. Qed.

Lemma heap_ok_alter (p : AudioPlayer) (h : list AudioBufferSourceNode)
    (f : AudioBufferSourceNode → AudioBufferSourceNode) (m : nat) :
  (∀ nd, node_ok p nd → node_ok p (f nd)) →
  (∀ n nd, h !! n = Some nd → node_ok p nd) →
  ∀ n nd, alter f m h !! n = Some nd → node_ok p nd.
Proof.
  intros Hf Hh n nd Hn. destruct (decide (m = n)) as [-> | Hne].
  - rewrite list_lookup_alter_eq in Hn.
    destruct (h !! n) as [nd0|] eqn:H0; [|done]. injection Hn as <-.
    by apply Hf, (Hh n).
  - rewrite list_lookup_alter_ne in Hn by done. by apply (Hh n).
Qed.

Lemma heap_ok_step (a : Action) (w : World) :
  consistent w → heap_ok w → heap_ok (step a w).1.
Proof.
  intros Hw Hh. unfold heap_ok.
  pose proof (step_keeps_pipeline a w) as Hpipe.
  assert (Hold : ∀ n nd, nodes w !! n = Some nd →
                   node_ok (player (step a w).1) nd).
  { intros n nd Hn. apply (node_ok_pipeline (player w)); [done|]. by apply (Hh n). }
  destruct a as [| k | | | cb | m]; cbn [step] in *.
  - unfold load in *. destruct (audioBuffer (player w)); [done|].
    by destruct (decode _).
  - unfold load_resume in *. by destruct (awaiting w !! k) as [[b|e]|].
  - destruct (audioBuffer (player w)) as [b|] eqn:Hb.
    + rewrite (play_loaded w b Hb) in *. cbn in *.
      intros n nd Hn. apply lookup_app_Some in Hn as [Hn | [Hlen Hn]].
      * revert n nd Hn.
        destruct (sourceNode (player w)) as [s|] eqn:Hs; [|done].
        rewrite (stop_session w s Hs). cbn.
        apply heap_ok_alter; [apply node_ok_stopped | done].
      * destruct (n - _)%nat; [|done]. injection Hn as <-.
        unfold node_ok. cbn. repeat split; try done.
        exists b. split; [done|]. rewrite Hpipe.
        by apply (cached_pipeline w Hw).
    + unfold play in *. by rewrite Hb in *.
  - destruct (sourceNode (player w)) as [s|] eqn:Hs.
    + rewrite (stop_session w s Hs) in *. cbn in *.
      apply heap_ok_alter; [apply node_ok_stopped | done].
    + by rewrite stop_idle in *.
  - done.
  - destruct (dispatch_ended_shape w m) as [[Hn | Hn] _]; rewrite Hn.
    + done.
    + apply heap_ok_alter; [apply node_ok_ended | done].
Qed.

Lemma reachable_heap_ok (w : World) : reachable w → heap_ok w.
Proof.
  intros (pf & base64 & acts & <-).
  assert (H : ∀ w0, consistent w0 → heap_ok w0 → heap_ok (run acts w0).1).
  { induction acts as [|a acts IH]; intros w0 Hc Hh; [done|].
    rewrite run_cons. cbn [fst].
    apply IH; [by apply step_consistent | by apply heap_ok_step]. }
  apply H; [apply new_consistent|]. intros n nd Hn. inversion Hn.
Qed.

End HeapFacts.

(** X3.  At most one source node is playing at any time: in every state
    the player can reach, a node that has been started and has neither
    been stopped nor finished is the session of the player, so two
    playing nodes are the same node. *)
Theorem single_voice (w : World) (n m : nat) (nd md : AudioBufferSourceNode) :
  reachable w →
  nodes w !! n = Some nd → phase nd = Started →
  sourceNode (player w) = Some n
  ∧ (nodes w !! m = Some md → phase md = Started → m = n).
Proof.
  intros Hr Hn Hp.
  pose proof (reachable_consistent w Hr) as Hw.
  pose proof (reachable_heap_ok w Hr) as Hh.
  assert (Hcur : ∀ k kd, nodes w !! k = Some kd → phase kd = Started →
                   sourceNode (player w) = Some k).
  { intros k kd Hk Hkp. apply (session_only w Hw k kd Hk).
    apply can_fire_true. destruct (Hh k kd Hk) as (_ & _ & _ & Hhandler).
    split; [by apply Hhandler | by left]. }
  split; [by apply (Hcur n nd)|].
  intros Hm Hmp. pose proof (Hcur n nd Hn Hp). pose proof (Hcur m md Hm Hmp).
  congruence.
Qed.

Lemma single_voice_witness :
  sourceNode (player playing_world) = Some 0%nat.
Proof.
  refine (proj1 (single_voice playing_world 0 0
            {| buffer := Some {| numberOfChannels := 1; frames := 2;
                                 sampleRate := 24000;
                                 channelData := [[(-1)%float;
                                                  0.999969482421875%float]] |};
               connected := true; onended := Some EndedClosure;
               phase := Started |}
            {| buffer := None; connected := false; onended := None;
               phase := Idle |} _ _ _)).
  - exists reference_platform, two_samples_base64,
      [CallLoad; ResumeLoad 0%nat; CallOnEnded 7%nat; CallPlay]. reflexivity.
  - reflexivity.
  - reflexivity.
Defined.

(** X4.  Every source node the player has created, in every state it can
    reach, is connected, has been started (so [stop()] is never called on
    a node that was not started) and plays the buffer that converting the
    decoded payload gives: one channel at 24000 Hz.  A node that is still
    playing holds the player's [ended] handler, and it is the session. *)
Theorem nodes_play_the_payload (w : World) (n : nat) (nd : AudioBufferSourceNode) :
  reachable w → nodes w !! n = Some nd →
  connected nd = true
  ∧ phase nd ≠ Idle
  ∧ (∃ b, buffer nd = Some b
          ∧ pipeline (player w) = Ok b
          ∧ numberOfChannels b = 1%nat ∧ sampleRate b = 24000)
  ∧ (phase nd = Started →
     onended nd = Some EndedClosure ∧ sourceNode (player w) = Some n).
Proof.
  intros Hr Hn.
  destruct (reachable_heap_ok w Hr n nd Hn) as (Hph & Hcon & (b & Hb & Hp) & Hh).
  split; [done|]. split; [done|]. split.
  - exists b. split; [done|]. split; [done|].
    unfold pipeline in Hp.
    destruct (decode (base64Audio (player w))) as [decoded|e]; [|done].
    cbn in Hp.
    destruct (decodeAudioData_Ok _ _ _ _ _ Hp) as (_ & _ & Hc & _ & _ & Hrate & _).
    done.
  - intros Hst. split; [by apply Hh|].
    apply (session_only w (reachable_consistent w Hr) n nd Hn).
    apply can_fire_true. split; [by apply Hh | by left].
Qed.

Lemma nodes_play_the_payload_witness :
  ∃ nd, nodes playing_world !! 0%nat = Some nd
        ∧ connected nd = true
        ∧ onended nd = Some EndedClosure
        ∧ sourceNode (player playing_world) = Some 0%nat.
Proof.
  eexists. split; [reflexivity|].
  assert (Hr : reachable playing_world).
  { exists reference_platform, two_samples_base64,
      [CallLoad; ResumeLoad 0%nat; CallOnEnded 7%nat; CallPlay]. reflexivity. }
  destruct (nodes_play_the_payload playing_world 0 _ Hr eq_refl)
    as (Hc & _ & _ & Hh).
  split; [exact Hc|]. exact (Hh eq_refl).
Defined.

(** X5.  An [ended] event that arrives for a node that is not the session
    of the player (a session that was stopped or replaced, a node that
    has already ended, a node that does not exist) changes nothing in the
    player and calls no callback: it cannot clear the current session. *)
Theorem stale_ended_is_ignored (w : World) (n : nat) :
  reachable w → sourceNode (player w) ≠ Some n →
  (dispatch_ended n w).2 = []
  ∧ player (dispatch_ended n w).1 = player w
  ∧ awaiting (dispatch_ended n w).1 = awaiting w.
Proof.
  intros Hr Hs. pose proof (reachable_consistent w Hr) as Hw.
  destruct (dispatch_ended_quiet w n) as (H1 & H2 & H3 & _); [|done].
  intros nd Hn. destruct (can_fire nd) eqn:Hf; [|done].
  exfalso. apply Hs. by apply (session_only w Hw n nd).
Qed.

Lemma stale_ended_is_ignored_witness :
  (dispatch_ended 0 replaying_world).2 = []
  ∧ player (dispatch_ended 0 replaying_world).1 = player replaying_world.
Proof.
  destruct (stale_ended_is_ignored replaying_world 0) as (H1 & H2 & _).
  - exists reference_platform, two_samples_base64,
      [CallLoad; ResumeLoad 0%nat; CallOnEnded 7%nat; CallPlay; CallPlay].
    reflexivity.
  - discriminate.
  - split; [exact H1 | exact H2].
Defined.

(** ** A payload that cannot be loaded *)
Section UnloadableFacts.



End UnloadableFacts.



(** X7.  End to end: a player constructed with the standard base64 text of
    an even, non-empty sequence of bytes, on a platform that supports one
    channel at 24000 Hz, is [Loaded] once [load()] has run and resumed;
    the decoders ran once; the buffer has one frame for every two bytes
    and one channel, whose sample [i] is the [i]-th little-endian 16-bit
    element divided by 32768. *)
Theorem load_encoded_samples (pf : Platform) (bytes : list byte) :
  (length bytes mod 2 = 0)%nat → (2 ≤ length bytes)%nat →
  (1 ≤ maxChannelCount pf)%nat →
  minBufferRate pf ≤ 24000 ≤ maxBufferRate pf →
  ∃ b samples,
    run [CallLoad; ResumeLoad 0%nat]
        (new_AudioPlayer pf (Base64Encoder.btoa bytes))
    = (with_player (set_audioBuffer (Some b))
         (new_AudioPlayer pf (Base64Encoder.btoa bytes)),
       [DecodeAttempt])
    ∧ frames b = (length bytes / 2)%nat
    ∧ numberOfChannels b = 1%nat
    ∧ sampleRate b = 24000
    ∧ channelData b = [samples]
    ∧ length samples = (length bytes / 2)%nat
    ∧ ∀ i x, int16_elements bytes !! i = Some x →
        samples !! i = Some (fround (div_32768 (Some x))).
Proof.
  intros Hev Hlen Hch Hrate.
  set (ctx := {| platform := pf; contextRate := 24000 |}).
  destruct (decodeAudioData_succeeds bytes ctx 24000 1) as [b Hb];
    [done | unfold ctx; cbn; lia | lia | unfold ctx; cbn; lia |].
  destruct (decodeAudioData_Ok _ _ _ _ _ Hb)
    as (_ & _ & Hn & Hf & _ & Hr & Hl & Hfill).
  rewrite Nat.div_1_r in Hf.
  pose proof (Hfill 0%nat ltac:(lia)) as H0.
  destruct (channelData b) as [|samples [|? ?]] eqn:Hcd; try done.
  change ([samples] !! 0%nat) with (Some samples) in H0. injection H0 as Hs.
  exists b, samples. split.
  - cbn [run step]. unfold load. cbn [new_AudioPlayer player audioBuffer base64Audio].
    rewrite decode_btoa. cbn [audioContext]. fold ctx. rewrite Hb.
    unfold load_resume, with_awaiting, with_player. cbn. done.
  - repeat split; try done.
    + by rewrite Hs, fill_channel_length, length_replicate.
    + intros i x Hx. rewrite Hs.
      apply lookup_lt_Some in Hx as Hi. rewrite int16_elements_length in Hi.
      rewrite fill_channel_lookup.
      * by rewrite Nat.mul_1_r, Nat.add_0_r, Hx.
      * rewrite length_replicate. lia.
      * unfold to_unsigned_long. cbn [numer denom].
        rewrite Nat.div_1_r, int16_elements_length. lia.
Qed.

Lemma load_encoded_samples_witness :
  ∃ b samples,
    run [CallLoad; ResumeLoad 0%nat]
        (new_AudioPlayer reference_platform (Base64Encoder.btoa two_samples))
    = (with_player (set_audioBuffer (Some b))
         (new_AudioPlayer reference_platform (Base64Encoder.btoa two_samples)),
       [DecodeAttempt])
    ∧ frames b = 2%nat ∧ channelData b = [samples].
Proof.
  destruct (load_encoded_samples reference_platform two_samples)
    as (b & samples & H1 & H2 & _ & _ & H3 & _);
    [reflexivity | cbn; lia | cbn; lia | cbn; lia |].
  exists b, samples. split; [exact H1|]. split; [exact H2 | exact H3].
Defined.

(** ** Sessions from start to end *)
Section SessionCycle.

Lemma set_sourceNode_back (p : AudioPlayer) (n : nat) :
  sourceNode p = None →
  set_sourceNode None (set_sourceNode (Some n) p) = p.
Proof. destruct p. cbn. by intros ->. Qed.

(** What a step adds to the trace, and to which node it belongs. *)
Lemma step_emits (a : Action) (w : World) (n : nat) :
  consistent w →
  (SinkStop n ∈ (step a w).2 →
     sourceNode (player w) = Some n
     ∧ silent n (step a w).1
     ∧ never_fired n (step a w).2)
  ∧ (∀ cb seen, Fired n cb seen ∈ (step a w).2 →
       sourceNode (player w) = Some n
       ∧ silent n (step a w).1
       ∧ (SinkStop n ∉ (step a w).2)
       ∧ seen = Loaded).
Proof.
  intros Hw.
  assert (Hstop : ∀ s, sourceNode (player w) = Some s →
            SinkStop n ∈ (stop w).2 → s = n).
  { intros s Hs Hin. rewrite (stop_session w s Hs) in Hin.
    apply list_elem_of_singleton in Hin. by injection Hin. }
  destruct a as [| k | | | cb0 | m]; cbn [step].
  - unfold load. destruct (audioBuffer (player w)).
    { split; [by intros H%elem_of_nil | by intros ? ? H%elem_of_nil]. }
    destruct (decode _); split; intros; cbn [fst snd] in *;
      repeat (match goal with
              | H : _ ∈ _ :: _ |- _ => apply elem_of_cons in H as [H | H]; [done|]
              | H : _ ∈ [] |- _ => by apply elem_of_nil in H
              end).
  - unfold load_resume. destruct (awaiting w !! k) as [[b|e]|]; split; intros;
      cbn [fst snd] in *;
      repeat (match goal with
              | H : _ ∈ _ :: _ |- _ => apply elem_of_cons in H as [H | H]; [done|]
              | H : _ ∈ [] |- _ => by apply elem_of_nil in H
              end).
  - destruct (audioBuffer (player w)) as [b|] eqn:Hb.
    + destruct (sourceNode (player w)) as [s|] eqn:Hs.
      * pose proof (stop_makes_silent w s Hw Hs) as (nd & Hnd & Hq).
        assert (Hplay : (play w).2 = [SinkStop s; SinkStart (length (nodes w)) 0]
                        ∧ nodes (play w).1 !! s = Some nd).
        { rewrite (play_loaded w b Hb), Hs. cbn.
          rewrite (stop_session w s Hs) in *. cbn in *. split; [done|].
          rewrite lookup_app_l; [done|]. by eapply lookup_lt_Some. }
        destruct Hplay as [Hev Hlook]. rewrite Hev. split.
        -- intros Hin. apply elem_of_cons in Hin as [[= <-] | Hin].
           ++ split; [done|]. split; [by exists nd|].
              intros cb seen He.
              repeat (apply elem_of_cons in He as [He | He]; [done|]).
              by apply elem_of_nil in He.
           ++ apply list_elem_of_singleton in Hin. done.
        -- intros cb seen He.
           repeat (apply elem_of_cons in He as [He | He]; [done|]).
           by apply elem_of_nil in He.
      * rewrite (play_loaded w b Hb), Hs. cbn. split.
        -- intros Hin. by apply list_elem_of_singleton in Hin.
        -- intros cb seen Hin. by apply list_elem_of_singleton in Hin.
    + unfold play. rewrite Hb. split.
      * intros Hin. by apply list_elem_of_singleton in Hin.
      * intros cb seen Hin. by apply list_elem_of_singleton in Hin.
  - destruct (sourceNode (player w)) as [s|] eqn:Hs.
    + pose proof (stop_makes_silent w s Hw Hs) as Hsil.
      rewrite (stop_session w s Hs) in *. cbn in *. split.
      * intros Hin. apply list_elem_of_singleton in Hin. injection Hin as <-.
        split; [done|]. split; [done|].
        intros cb seen He. by apply list_elem_of_singleton in He.
      * intros cb seen Hin. by apply list_elem_of_singleton in Hin.
    + rewrite stop_idle by done.
      split; [by intros H%elem_of_nil | by intros ? ? H%elem_of_nil].
  - cbn. split; [by intros H%elem_of_nil | by intros ? ? H%elem_of_nil].
  - destruct (dispatch_ended_shape w m) as [_ Hshape]. split.
    + intros Hin. by destruct (Hshape _ Hin) as (cb & seen & ?).
    + intros cb seen Hin.
      destruct (Hshape _ Hin) as (cb' & seen' & [= -> _ _]).
      destruct (nodes w !! m) as [nd|] eqn:Hm.
      * destruct (can_fire nd) eqn:Hf.
        -- pose proof (session_only w Hw m nd Hm Hf) as Hs.
           destruct (session_started w Hw m Hs) as [[b Hb] _].
           rewrite (dispatch_ended_fires w m nd Hm Hf) in *. cbn in *.
           split; [done|]. split.
           { exists (set_phase Ended nd). cbn.
             split; [by rewrite list_lookup_alter_eq, Hm | apply can_fire_ended]. }
           destruct (onEndedCallback (player w)); [|by apply elem_of_nil in Hin].
           apply list_elem_of_singleton in Hin. injection Hin as _ ->.
           split; [by intros H%list_elem_of_singleton|].
           unfold state_of. cbn. by rewrite Hb.
        -- destruct (dispatch_ended_quiet w m) as (Hnil & _).
           { intros nd' Hnd'. congruence. }
           rewrite Hnil in Hin. by apply elem_of_nil in Hin.
      * unfold dispatch_ended in Hin. rewrite Hm in Hin.
        by apply elem_of_nil in Hin.
Qed.

Lemma step_started (a : Action) (w : World) (evs : list Event) :
  all_started evs w → all_started (evs ++ (step a w).2) (step a w).1.
Proof.
  intros Hall n Hn.
  assert (Hsame : length (nodes (step a w).1) = length (nodes w) →
                  SinkStart n 0 ∈ evs ++ (step a w).2).
  { intros Hlen. apply elem_of_app. left. apply Hall. lia. }
  destruct a as [| k | | | cb0 | m]; cbn [step] in *.
  - apply Hsame. unfold load. destruct (audioBuffer (player w)); [done|].
    by destruct (decode _).
  - apply Hsame. unfold load_resume. by destruct (awaiting w !! k) as [[b|e]|].
  - destruct (audioBuffer (player w)) as [b|] eqn:Hb.
    + rewrite (play_loaded w b Hb) in *. cbn in *.
      assert (Hlen : length (nodes (match sourceNode (player w) with
                                    | Some _ => stop w
                                    | None => (w, [])
                                    end).1) = length (nodes w)).
      { destruct (sourceNode (player w)) as [s|] eqn:Hs; [|done].
        rewrite (stop_session w s Hs). cbn. by rewrite length_alter. }
      rewrite length_app, Hlen in Hn. cbn in Hn.
      apply elem_of_app. destruct (decide (n = length (nodes w))) as [-> | Hne].
      * right. apply elem_of_app. right. by apply list_elem_of_singleton.
      * left. apply Hall. lia.
    + apply Hsame. unfold play. by rewrite Hb.
  - apply Hsame. destruct (sourceNode (player w)) as [s|] eqn:Hs.
    + rewrite (stop_session w s Hs). cbn. by rewrite length_alter.
    + by rewrite stop_idle.
  - by apply Hsame.
  - apply Hsame. destruct (dispatch_ended_shape w m) as [[-> | ->] _]; [done|].
    by rewrite length_alter.
Qed.

(** The three facts about the trace, kept along a run. *)
Lemma trace_invariant (acts : list Action) :
  ∀ (w : World) (evs : list Event),
    consistent w → settled evs w → all_started evs w →
    (∀ n, SinkStop n ∈ evs → never_fired n evs) →
    (∀ n cb seen, Fired n cb seen ∈ evs → seen = Loaded) →
    let evs' := evs ++ (run acts w).2 in
    settled evs' (run acts w).1
    ∧ all_started evs' (run acts w).1
    ∧ (∀ n, SinkStop n ∈ evs' → never_fired n evs')
    ∧ (∀ n cb seen, Fired n cb seen ∈ evs' → seen = Loaded).
Proof.
  induction acts as [|a acts IH]; intros w evs Hw Hset Hall Hexcl Hseen.
  - cbn. by rewrite app_nil_r.
  - cbn zeta. rewrite run_cons. cbn [fst snd]. rewrite app_assoc.
    apply IH.
    + by apply step_consistent.
    + intros n Hn.
      assert (Hcase : (SinkStop n ∈ evs ∨ ∃ cb seen, Fired n cb seen ∈ evs)
                      ∨ SinkStop n ∈ (step a w).2
                      ∨ ∃ cb seen, Fired n cb seen ∈ (step a w).2).
      { destruct Hn as [Hn | (cb & seen & Hn)];
          apply elem_of_app in Hn as [Hn | Hn]; eauto 6. }
      destruct Hcase as [Hold | [Hnew | (cb & seen & Hnew)]].
      * by apply step_silent, Hset.
      * by apply (step_emits a w n Hw).
      * by apply (proj2 (step_emits a w n Hw) cb seen).
    + by apply step_started.
    + intros n Hn cb seen Hf.
      apply elem_of_app in Hn as [Hn | Hn]; apply elem_of_app in Hf as [Hf | Hf].
      * by apply (Hexcl n Hn cb seen).
      * assert (Hsil : silent n w) by (apply Hset; by left).
        by apply (proj2 (step_silent a w n Hsil) cb seen).
      * assert (Hsil : silent n w) by (apply Hset; right; eauto).
        destruct (proj1 (step_emits a w n Hw) Hn) as (Hs & _).
        destruct Hsil as (nd & Hnd & Hq).
        destruct (session_started w Hw n Hs) as [_ (nd' & Hnd' & Ho & Hp)].
        assert (nd' = nd) as -> by congruence.
        unfold can_fire in Hq. by rewrite Ho, Hp in Hq.
      * destruct (proj1 (step_emits a w n Hw) Hn) as (_ & _ & Hnf).
        by apply (Hnf cb seen).
    + intros n cb seen Hf. apply elem_of_app in Hf as [Hf | Hf].
      * by apply (Hseen n cb seen).
      * by apply (proj2 (step_emits a w n Hw) cb seen).
Qed.

End SessionCycle.

(** X8.  From a [Loaded] player, [play()] followed by [stop()], and
    [play()] followed by the natural end of the session, both give back
    the player exactly as it was (the same buffer, the same callback, no
    session), so playback can be started again and again without
    decoding.  The first sends start and stop to the sink and calls no
    callback; the second sends start only and calls the registered
    callback, if there is one, once. *)
Theorem session_leaves_no_trace (w : World) :
  reachable w → state_of (player w) = Loaded →
  (run [CallPlay; CallStop] w).2
  = [SinkStart (length (nodes w)) 0; SinkStop (length (nodes w))]
  ∧ player (run [CallPlay; CallStop] w).1 = player w
  ∧ (run [CallPlay; EndedEvent (length (nodes w))] w).2
    = SinkStart (length (nodes w)) 0
      :: match onEndedCallback (player w) with
         | Some cb => [Fired (length (nodes w)) cb Loaded]
         | None => []
         end
  ∧ player (run [CallPlay; EndedEvent (length (nodes w))] w).1 = player w.
Proof.
  intros Hr Hst.
  assert (Hfields : ∃ b, audioBuffer (player w) = Some b
                         ∧ sourceNode (player w) = None).
  { unfold state_of in Hst.
    destruct (audioBuffer (player w)) as [b|], (sourceNode (player w)); try done.
    by exists b. }
  destruct Hfields as (b & Hb & Hs).
  set (n := length (nodes w)).
  set (nd := {| buffer := Some b; connected := true;
                onended := Some EndedClosure; phase := Started |}).
  assert (Hplay : play w
                  = ({| player := set_sourceNode (Some n) (player w);
                        nodes := nodes w ++ [nd];
                        awaiting := awaiting w |},
                     [SinkStart n 0])).
  { by rewrite (play_loaded w b Hb), Hs. }
  assert (Hlook : (nodes w ++ [nd]) !! n = Some nd).
  { subst n. rewrite lookup_app_r by lia. by rewrite Nat.sub_diag. }
  split_and!.
  - rewrite run_cons. cbn [step]. rewrite Hplay. cbn [fst snd].
    rewrite run_cons. cbn [step run fst snd].
    rewrite (stop_session _ n) by done. done.
  - rewrite run_cons. cbn [step]. rewrite Hplay. cbn [fst snd].
    rewrite run_cons. cbn [step run fst snd].
    rewrite (stop_session _ n) by done. cbn.
    by apply set_sourceNode_back.
  - rewrite run_cons. cbn [step]. rewrite Hplay. cbn [fst snd].
    rewrite run_cons. cbn [step run fst snd].
    rewrite (dispatch_ended_fires _ n nd); [| done | done]. cbn.
    unfold state_of. cbn. rewrite Hb.
    by destruct (onEndedCallback (player w)).
  - rewrite run_cons. cbn [step]. rewrite Hplay. cbn [fst snd].
    rewrite run_cons. cbn [step run fst snd].
    rewrite (dispatch_ended_fires _ n nd); [| done | done]. cbn.
    by apply set_sourceNode_back.
Qed.

Lemma session_leaves_no_trace_witness :
  player (run [CallPlay; CallStop] loaded_world).1 = player loaded_world
  ∧ player (run [CallPlay; EndedEvent 0%nat] loaded_world).1
    = player loaded_world.
Proof.
  destruct (session_leaves_no_trace loaded_world) as (_ & H1 & _ & H2).
  - exists reference_platform, two_samples_base64, [CallLoad; ResumeLoad 0%nat].
    reflexivity.
  - reflexivity.
  - split; [exact H1 | exact H2].
Defined.

(** X9.  Over everything that can happen to a player from its
    construction: a session that was stopped through the sink is never
    reported as completed, and a session reported as completed is never
    stopped; whenever a completion callback is called it sees the player
    [Loaded]; and both happen only to nodes that were started through the
    sink at offset 0. *)
Theorem stopped_or_completed (pf : Platform) (base64 : string)
    (acts : list Action) (n : nat) :
  (SinkStop n ∈ (run acts (new_AudioPlayer pf base64)).2 →
   never_fired n (run acts (new_AudioPlayer pf base64)).2)
  ∧ (∀ cb seen, Fired n cb seen ∈ (run acts (new_AudioPlayer pf base64)).2 →
       seen = Loaded)
  ∧ (SinkStop n ∈ (run acts (new_AudioPlayer pf base64)).2
     ∨ (∃ cb seen, Fired n cb seen ∈ (run acts (new_AudioPlayer pf base64)).2) →
     SinkStart n 0 ∈ (run acts (new_AudioPlayer pf base64)).2).
Proof.
  destruct (trace_invariant acts (new_AudioPlayer pf base64) [])
    as (Hset & Hall & Hexcl & Hseen).
  - apply new_consistent.
  - intros m [Hm | (cb & seen & Hm)]; by apply elem_of_nil in Hm.
  - intros m Hm. cbn in Hm. lia.
  - intros m Hm. by apply elem_of_nil in Hm.
  - intros m cb seen Hm. by apply elem_of_nil in Hm.
  - cbn [app] in *. split_and!.
    + apply Hexcl.
    + apply Hseen.
    + intros Hn. apply Hall. destruct (Hset n Hn) as (nd & Hnd & _).
      by eapply lookup_lt_Some.
Qed.

(** * The generation service *)

Section SplitFacts.

Lemma split_cons (sep : ascii) (s : string) :
  ∃ piece pieces, split sep s = piece :: pieces.
Proof.
  destruct s as [|c rest]; cbn [split]; [by eexists _, _|].
  destruct (Ascii.eqb c sep); [by eexists _, _|].
  destruct (split sep rest); by eexists _, _.
Qed.

Lemma split_plain (sep : ascii) (s : string) :
  contains sep s = false → split sep s = [s].
Proof.
  induction s as [|c rest IH]; cbn [split contains]; [done|].
  intros [Hc Hrest]%orb_false_iff. by rewrite Hc, (IH Hrest).
Qed.

Lemma split_at (sep : ascii) (s rest : string) :
  contains sep s = false →
  split sep (s ++ String sep rest) = s :: split sep rest.
Proof.
  induction s as [|c s IH].
  - intros _. change (split sep (String sep rest)
                      = EmptyString :: split sep rest).
    cbn [split]. by rewrite Ascii.eqb_refl.
  - cbn [contains]. intros [Hc Hs]%orb_false_iff.
    change (split sep (String c (s ++ String sep rest))
            = String c s :: split sep rest).
    cbn [split]. by rewrite Hc, (IH Hs).
Qed.

Lemma append_assoc (s t u : string) :
  ((s ++ t) ++ u = s ++ (t ++ u))%string.
Proof.
  induction s as [|c s IH]; [done|].
  change (String c ((s ++ t) ++ u) = String c (s ++ (t ++ u)))%string.
  by rewrite IH.
Qed.

Lemma contains_app (c : ascii) (s t : string) :
  contains c (s ++ t) = contains c s || contains c t.
Proof.
  induction s as [|d s IH]; [done|].
  change (Ascii.eqb d c || contains c (s ++ t)
          = Ascii.eqb d c || contains c s || contains c t).
  by rewrite IH, orb_assoc.
Qed.

Lemma contains_chars (c : ascii) (l : list ascii) :
  contains c (string_of_list_ascii l) = existsb (λ d, Ascii.eqb d c) l.
Proof. induction l as [|d l IH]; [done|]. cbn. by rewrite IH. Qed.

Lemma btoa_no_comma (bytes : list byte) :
  contains comma (Base64Encoder.btoa bytes) = false.
Proof.
  unfold Base64Encoder.btoa. rewrite contains_chars, existsb_app.
  apply orb_false_iff. split.
  - pose proof (groups_small bytes) as Hsmall.
    induction Hsmall as [|v vs Hv _ IH]; [done|].
    cbn [map existsb]. rewrite IH, orb_false_r.
    destruct (alphabet_facts v Hv) as (Hs & _).
    destruct (Ascii.eqb_spec (Base64Encoder.alphabet v) comma) as [E|_];
      [|done].
    by rewrite E in Hs.
  - unfold Base64Encoder.padding.
    induction ((3 - length bytes mod 3) mod 3)%nat as [|n IH]; [done|].
    cbn [replicate existsb]. by rewrite IH.
Qed.

End SplitFacts.

(** X10.  [fileToGenerativePart] sends the bytes of the file: when the
    reader delivers the data URL of the bytes, with a media type that has
    no comma in it, the part holds exactly the standard base64 text of
    the bytes and the type of the file.  The text is taken after the
    first comma, whichever it is: with a comma inside the media type, the
    part holds the rest of the media type and none of the payload. *)
Theorem data_url_payload (br : Browser) (call : nat) (file : File)
    (media : string) (bytes : list byte) :
  reader_result br call file = Some (data_url media bytes) →
  (contains comma media = false →
   fileToGenerativePart br call file
   = Resolved (InlinePart (Some (Base64Encoder.btoa bytes)) (file_type file)))
  ∧ (∀ m1 m2 : string,
       media = (m1 ++ String comma m2)%string →
       contains comma m1 = false →
       contains comma m2 = false →
       fileToGenerativePart br call file
       = Resolved (InlinePart (Some (m2 ++ ";base64")%string) (file_type file))).
Proof.
  intros Hread. unfold fileToGenerativePart. rewrite Hread. unfold data_url.
  split.
  - intros Hmedia.
    replace ("data:" ++ media ++ ";base64," ++ Base64Encoder.btoa bytes)%string
      with (("data:" ++ media ++ ";base64")
              ++ String comma (Base64Encoder.btoa bytes))%string.
    2:{ by rewrite !append_assoc. }
    rewrite split_at.
    + rewrite (split_plain _ _ (btoa_no_comma bytes)). reflexivity.
    + by rewrite !contains_app, Hmedia.
  - intros m1 m2 -> H1 H2.
    replace ("data:" ++ (m1 ++ String comma m2) ++ ";base64,"
               ++ Base64Encoder.btoa bytes)%string
      with (("data:" ++ m1)
              ++ String comma ((m2 ++ ";base64")
                                 ++ String comma (Base64Encoder.btoa bytes)))%string.
    2:{ by rewrite !append_assoc. }
    rewrite split_at.
    + rewrite split_at; [reflexivity|]. by rewrite contains_app, H2.
    + by rewrite contains_app, H1.
Qed.

Lemma data_url_payload_witness :
  fileToGenerativePart reference_browser 0 photo
  = Resolved (InlinePart (Some "/9j/") "image/jpeg").
Proof.
  apply (proj1 (data_url_payload reference_browser 0 photo "image/jpeg"
                  (file_bytes photo) eq_refl)).
  reflexivity.
Defined.

(** X11.  [generateNarration] looks for the audio in one place only, the
    inline data of the first part of the first candidate: it resolves
    exactly when the service answered with a text there that is not
    empty, and with that text; the empty string is never returned.  A
    failure of the request is passed on as it is, every other failure is
    the error "Failed to generate audio narration.", and the call stays
    pending exactly when the request does. *)
Theorem narration_outcome (br : Browser) (call : nat)
    (textToNarrate : string) :
  let request := generateContent br call (narrationRequest textToNarrate) in
  (∀ audioData,
     generateNarration br call textToNarrate = Resolved audioData ↔
     audioData ≠ EmptyString
     ∧ ∃ result c cs ct p ps i,
         request = Resolved result
         ∧ candidates result = Some (c :: cs)
         ∧ content c = Some ct
         ∧ parts ct = Some (p :: ps)
         ∧ inlineData p = Some i
         ∧ data i = Some audioData)
  ∧ (∀ e, generateNarration br call textToNarrate = Rejected e →
          request = Rejected e
          ∨ e = ThrownError "Failed to generate audio narration.")
  ∧ (generateNarration br call textToNarrate = Never ↔ request = Never).
Proof.
  cbv zeta. unfold generateNarration.
  destruct (generateContent br call (narrationRequest textToNarrate))
    as [result|e0|]; cbn [mbind Outcome_bind].
  2:{ split_and!; [|intros e [= ->]; by left|done].
      intros d. split; [done|]. by intros (_ & ? & ? & ? & ? & ? & ? & ? & ? & _). }
  2:{ split_and!; [|done|done].
      intros d. split; [done|]. by intros (_ & ? & ? & ? & ? & ? & ? & ? & ? & _). }
  assert (Hchain : ∀ d,
    (c ← first (candidates result); ct ← content c; p ← first (parts ct);
     i ← inlineData p; data i) = Some d ↔
    ∃ c cs ct p ps i,
      candidates result = Some (c :: cs) ∧ content c = Some ct
      ∧ parts ct = Some (p :: ps) ∧ inlineData p = Some i ∧ data i = Some d).
  { intros d. unfold first. split.
    - destruct (candidates result) as [[|c cs]|]; [done| |done].
      cbn. destruct (content c) as [ct|] eqn:Hc; [|done].
      cbn. destruct (parts ct) as [[|p ps]|] eqn:Hp; [done| |done].
      cbn. destruct (inlineData p) as [i|] eqn:Hi; [|done].
      cbn. intros Hd. by exists c, cs, ct, p, ps, i.
    - intros (c & cs & ct & p & ps & i & -> & Hc & Hp & Hi & Hd).
      cbn. rewrite Hc. cbn. rewrite Hp. cbn. rewrite Hi. cbn. done. }
  destruct (c ← first (candidates result); ct ← content c;
            p ← first (parts ct); i ← inlineData p; data i)
    as [d0|] eqn:E; cbn [truthy default].
  - destruct (String.eqb_spec d0 EmptyString) as [->|Hne]; cbn [negb].
    + split_and!; [|intros e [= <-]; by right|done].
      intros d. split; [done|].
      intros (Hd & r & c & cs & ct & p & ps & i & [= <-] & H).
      assert (Some EmptyString = Some d) as [= <-]; [|done].
      apply Hchain. by exists c, cs, ct, p, ps, i.
    + split_and!; [|done|done].
      intros d. split.
      * intros [= <-]. split; [done|].
        destruct (proj1 (Hchain d0) eq_refl) as (c & cs & ct & p & ps & i & H).
        by exists result, c, cs, ct, p, ps, i.
      * intros (_ & r & c & cs & ct & p & ps & i & [= <-] & H).
        assert (Some d0 = Some d) as [= <-]; [|done].
        apply Hchain. by exists c, cs, ct, p, ps, i.
  - split_and!; [|intros e [= <-]; by right|done].
    intros d. split; [done|].
    intros (_ & r & c & cs & ct & p & ps & i & [= <-] & H).
    assert (None = Some d) as [=].
    apply Hchain. by exists c, cs, ct, p, ps, i.
Qed.

(** * The application shell *)

Section ShellFacts.
Context (br : Browser).








End ShellFacts.


Section ScreenFacts.
Context (br : Browser).













End ScreenFacts.



(** Outside that use the shell loses track: with two uploads from one
    uploader (two captures before the first one is rendered) the first
    URL is never revoked, and after a reset it is still live. *)
Example overlapping_uploads_leak :
  let s := App.app_run reference_browser
             [App.ImageUploaded photo None; App.ImageUploaded photo None;
              App.Settled 0; App.Settled 0; App.ResetClicked]
             App.initial_state in
  App.step s = App.UPLOAD ∧ live_urls s = 1%nat ∧ pending_uploads s = 1%nat.
Proof. vm_compute. done. Qed.

Section Hang.
Context (br : Browser).



End Hang.



(** * The result screen *)

Section DisplayFacts.


















End DisplayFacts.




